(** * sinusmonome: the animated sine wave on a monome grid (src/main.py)

    A shallow embedding of [AliveWaveGridApp] and of the numpy operations it
    calls, followed by the properties of the bitmap renderer, the tone
    envelope and the animation loop.

    Numbers.  Python [int]s are [Z].  Python and numpy floats are modelled
    as real numbers [R]: every float operation is taken to be exact, and
    the non-finite floats (nan, inf) have no counterpart.  The integer
    results the program derives from floats (sample counts, sample indices)
    are the same in binary64 and over [R]; the places where this matters
    are remarked where they occur.  Where the rounding decides the matter,
    in the growth of the phase, line 94 is modelled again with the rounding
    written out.  A wave function is taken to be what [np.sin] is: a
    function applied to each sample that returns a finite number. *)

From Stdlib Require Import Floats.
From Stdlib Require Import Reals Lra Lia ZArith List Bool Arith.
Import ListNotations.

Local Open Scope R_scope.

(** ** Module-level parameters (main.py, lines 7-16) *)

Definition frequency : Z := 440.
Definition sample_rate : Z := 44100.
Definition bitmap_size : Z := 8.
Definition internal_resolution : Z := 32.
Definition speed : R := 0.02.
Definition amplitude : Z := 1.
Definition phase_increment : R := 0.1.
Definition brightness_factor : Z := 15.
Definition sound_duration : R := 0.1.
Definition pitch_variation_factor : R := 0.02.

(** ** Python and numpy primitives *)

Module Np.

(** [int(x)] on a float: truncation toward zero. *)
Definition int (x : R) : Z :=
  if Rle_dec 0 x then Int_part x else (- Int_part (- x))%Z.

(** [np.round(x)]: to the nearest integer, ties to the even one. *)
Definition round (x : R) : R :=
  let f := Int_part x in
  let d := x - IZR f in
  if Rlt_dec d (1 / 2) then IZR f
  else if Rlt_dec (1 / 2) d then IZR (f + 1)
  else if Z.even f then IZR f else IZR (f + 1).

(** [range(n)] and [np.arange(n)]. *)
Definition range (n : Z) : list Z := map Z.of_nat (seq 0 (Z.to_nat n)).
Definition arange (n : Z) : list R := map IZR (range n).

(** [np.linspace(start, stop, num, endpoint)]: [num] samples
    [start + i * step], the step being [(stop - start) / div] with
    [div = num - 1] when the end point is included and [num] otherwise.
    When the end point is included numpy then stores [stop] in the last
    sample, which is the value the formula gives.  numpy raises on a
    negative [num]; every count below is a non-negative constant, so
    [num] is a [nat] here. *)
Definition linspace (start stop : R) (num : nat) (endpoint : bool) : list R :=
  let div := if endpoint then (num - 1)%nat else num in
  let step := (stop - start) / INR div in
  map (fun i => INR i * step + start) (seq 0 num).

(** [np.ones(n)]. *)
Definition ones (n : nat) : list R := repeat 1 n.

(** [np.zeros((rows, cols), dtype=int)]. *)
Definition zeros (rows cols : nat) : list (list Z) :=
  repeat (repeat 0%Z cols) rows.

(** [np.interp(x, xp, fp)] for increasing [xp]: [fp[0]] left of the table,
    [fp[-1]] at and right of its last point, and on the segment
    [xp[j] <= x < xp[j+1]] the value
    [slope * (x - xp[j]) + fp[j]]. *)
Fixpoint interp_from (x : R) (xp fp : list R) : R :=
  match xp, fp with
  | x0 :: ((x1 :: _) as xp'), y0 :: ((y1 :: _) as fp') =>
      if Rlt_dec x x1
      then (y1 - y0) / (x1 - x0) * (x - x0) + y0
      else interp_from x xp' fp'
  | _, y0 :: _ => y0
  | _, [] => 0
  end.

Definition interp (x : R) (xp fp : list R) : R :=
  match xp, fp with
  | x0 :: _, y0 :: _ => if Rlt_dec x x0 then y0 else interp_from x xp fp
  | _, _ => 0
  end.

(** An index [i] into an axis of length [len]: a negative index counts
    from the end, anything outside [-len, len) raises IndexError
    ([None]). *)
Definition index (len : nat) (i : Z) : option nat :=
  if ((0 <=? i) && (i <? Z.of_nat len))%Z then Some (Z.to_nat i)
  else if ((- Z.of_nat len <=? i) && (i <? 0))%Z
       then Some (Z.to_nat (i + Z.of_nat len))
       else None.

(** [a[i]]. *)
Definition getitem {A : Type} (a : list A) (i : Z) : option A :=
  match index (length a) i with
  | Some k => nth_error a k
  | None => None
  end.

Fixpoint update {A : Type} (l : list A) (k : nat) (v : A) : list A :=
  match l, k with
  | [], _ => []
  | _ :: t, O => v :: t
  | h :: t, S k' => h :: update t k' v
  end.

(** [a[r, c] = v] on a two-dimensional array. *)
Definition setitem2 (a : list (list Z)) (r c v : Z) : option (list (list Z)) :=
  match index (length a) r with
  | Some i =>
      match nth_error a i with
      | Some row =>
          match index (length row) c with
          | Some j => Some (update a i (update row j v))
          | None => None
          end
      | None => None
      end
  | None => None
  end.

(** [a.max()] of a one-dimensional integer array; raises on an empty one. *)
Definition max (a : list Z) : option Z :=
  match a with
  | [] => None
  | h :: t => Some (fold_left Z.max t h)
  end.

End Np.

(** ** The application object *)

Definition Bitmap := list (list Z).

(** The attributes set by [AliveWaveGridApp.__init__]. *)
Record App := mkApp {
  phase : R;
  wave_func : R -> R;
  connected : bool;
  prev_brightness : Z
}.

(** [AliveWaveGridApp(wave_func)]. *)
Definition init (wf : R -> R) : App :=
  {| phase := 0; wave_func := wf; connected := false; prev_brightness := 0 |}.

(** [AliveWaveGridApp()]: the wave function defaults to [np.sin]. *)
Definition default_app : App := init sin.

Definition bind {A B : Type} (m : option A) (k : A -> option B) : option B :=
  match m with
  | Some a => k a
  | None => None
  end.

Notation "x <- m ;; k" := (bind m (fun x => k))
  (at level 61, m at next level, right associativity).
Notation "' p <- m ;; k" := (bind m (fun x => match x with p => k end))
  (at level 61, p pattern, m at next level, right associativity).

(** *** generate_bitmap (lines 26-41) *)

(** The 32 sample positions, line 29. *)
Definition sample_x : list R :=
  Np.linspace 0 (IZR bitmap_size) (Z.to_nat internal_resolution) false.

(** Line 30.  The wave function is called on the array of positions; it is
    taken to work sample by sample and to return finite numbers, as
    [np.sin] does. *)
Definition wave (self : App) (ph : R) : list R :=
  map (fun xi =>
         IZR amplitude * wave_func self (2 * PI * (xi / IZR bitmap_size) + ph))
      sample_x.

(** Line 31. *)
Definition wave_scaled (self : App) (ph : R) : list R :=
  map (fun w => Np.interp w [-1; 1] [0; IZR (bitmap_size - 1)]) (wave self ph).

(** Line 32. *)
Definition brightness (self : App) (ph : R) : list R :=
  map (fun w => Np.interp (Rabs w) [0; 1] [1; IZR brightness_factor])
      (wave self ph).

(** Line 38: the position of display column [col] among the samples. *)
Definition col_x (col : Z) : R :=
  Np.interp (IZR col) (Np.arange bitmap_size)
    (Np.linspace 0 (IZR (internal_resolution - 1)) (Z.to_nat bitmap_size) true).

(** Lines 38-40: the body of the column loop. *)
Definition set_column (self : App) (ph : R) (bitmap : Bitmap) (col : Z)
  : option Bitmap :=
  ws <- Np.getitem (wave_scaled self ph) (Np.int (col_x col)) ;;
  let row := Np.int (Np.round ws) in
  br <- Np.getitem (brightness self ph) (Np.int (col_x col)) ;;
  Np.setitem2 bitmap row col (Np.int br).

Definition generate_bitmap (self : App) (ph : R) : option Bitmap :=
  fold_left (fun acc col => bitmap <- acc ;; set_column self ph bitmap col)
    (Np.range bitmap_size)
    (Some (Np.zeros (Z.to_nat bitmap_size) (Z.to_nat bitmap_size))).

(** ** Effects: what the program sends to the grid and to the sound device *)

Inductive Event :=
| LedAll (level : Z)                       (* grid.led_all(level) *)
| LedSet (x y level : Z)                   (* grid.led_set(x, y, level) *)
| SdPlay (samples : list R) (rate : Z)     (* sd.play(samples, samplerate) *)
| SdWait                                   (* sd.wait() *)
| Sleep (seconds : R).                     (* await asyncio.sleep(seconds) *)

(** [enumerate(l)]. *)
Definition enumerate {A : Type} (l : list A) : list (Z * A) :=
  combine (map Z.of_nat (seq 0 (length l))) l.

(** *** display_bitmap (lines 67-73) *)

Definition display_bitmap (bitmap : Bitmap) : list Event :=
  LedAll 0 ::
  flat_map (fun '(row_idx, row) =>
              map (fun '(col_idx, col) => LedSet col_idx row_idx col)
                  (enumerate row))
           (enumerate bitmap).

(** *** play_sound (lines 43-65) *)

(** [int(sample_rate * seconds)], a number of samples. *)
Definition samples_in (seconds : R) : nat :=
  Z.to_nat (Np.int (IZR sample_rate * seconds)).

(** Line 46. *)
Definition pitch (level : R) : R :=
  IZR frequency + level * pitch_variation_factor.

(** Line 47. *)
Definition tone_t : list R :=
  Np.linspace 0 sound_duration (samples_in sound_duration) false.

(** Line 50: the carrier. *)
Definition carrier (level : R) : list R :=
  map (fun t => 0.5 * sin (2 * PI * pitch level * t)) tone_t.

Definition attack : list R := Np.linspace 0 1 (samples_in 0.02) true.
Definition decay : list R := Np.linspace 1 0.8 (samples_in 0.05) true.
Definition sustain : list R := Np.ones (samples_in (sound_duration - 0.07)).
Definition release : list R := Np.linspace 0.8 0 (samples_in 0.02) true.

(** Lines 53-58. *)
Definition envelope : list R := attack ++ decay ++ sustain ++ release.

(** [a *= b] on one-dimensional arrays: [b] must have the length of [a],
    or length 1 (it is then broadcast); otherwise numpy raises. *)
Definition imul (a b : list R) : option (list R) :=
  if (length b =? length a)%nat then Some (map (fun '(u, v) => u * v) (combine a b))
  else match b with
       | [v] => Some (map (fun u => u * v) a)
       | _ => None
       end.

(** Line 61: the envelope cut to the carrier's length, [envelope[:len(sound_wave)]]. *)
Definition envelope_used (level : R) : list R :=
  firstn (length (carrier level)) envelope.

Definition sound_wave (level : R) : option (list R) :=
  imul (carrier level) (envelope_used level).

Definition play_sound (level : R) : option (list Event) :=
  sw <- sound_wave level ;;
  Some [SdPlay sw sample_rate; SdWait].

(** *** stop_animation (lines 97-99) *)

Definition stop_animation (self : App) : App :=
  {| phase := phase self; wave_func := wave_func self;
     connected := false; prev_brightness := prev_brightness self |}.

(** *** start_animation (lines 75-95) *)

(** Line 77: [self.connected = True]. *)
Definition entered (self : App) : App :=
  {| phase := phase self; wave_func := wave_func self;
     connected := true; prev_brightness := prev_brightness self |}.

(** Line 86: the largest value of the middle row. *)
Definition middle_row_brightness (bitmap : Bitmap) : option Z :=
  row <- Np.getitem bitmap (bitmap_size / 2)%Z ;;
  Np.max row.

(** Lines 89-91.  The call of [play_sound] on line 90 is commented out in
    the source, so the branch only stores the new value. *)
Definition compare (self : App) (m : Z) : list Event * App :=
  if Rlt_dec 0.1 (IZR (Z.abs (prev_brightness self - m)))
  then ([], {| phase := phase self; wave_func := wave_func self;
               connected := connected self; prev_brightness := m |})
  else ([], self).

(** Line 94, in exact arithmetic; [advance_rounded] and [advance64] below
    write the rounding out. *)
Definition advance (self : App) : App :=
  {| phase := phase self + (phase_increment + 0.05 * sin (phase self));
     wave_func := wave_func self;
     connected := connected self; prev_brightness := prev_brightness self |}.

(** Lines 80-95: one pass through the body of the [while] loop, as a
    function: the events it emits and the object it leaves, [None] when
    an exception is raised. *)
Definition iteration (self : App) : option (list Event * App) :=
  bitmap <- generate_bitmap self (phase self) ;;
  let shown := display_bitmap bitmap in
  m <- middle_row_brightness bitmap ;;
  let '(played, self1) := compare self m in
  let self2 := advance self1 in
  Some (shown ++ played ++ [Sleep speed], self2).

(** The loop statement by statement.  A control point names the line the
    coroutine is about to execute; the bitmap of the current frame is a
    local variable and travels with the control point. *)
Inductive Pc :=
| AtEntry                    (* line 77 *)
| AtWhile                    (* line 78 *)
| AtGenerate                 (* line 80 *)
| AtDisplay (bitmap : Bitmap)  (* line 83 *)
| AtCompare (bitmap : Bitmap)  (* lines 86-91 *)
| AtAdvance                  (* line 94 *)
| AtSleep                    (* line 95 *)
| Returned                   (* the loop was left *)
| Raised.                    (* an exception ended the coroutine *)

Definition Config : Type := Pc * App.

(** One statement of the coroutine. *)
Definition step (c : Config) : option (list Event * Config) :=
  let '(pc, self) := c in
  match pc with
  | AtEntry => Some ([], (AtWhile, entered self))
  | AtWhile =>
      Some ([], (if connected self then AtGenerate else Returned, self))
  | AtGenerate =>
      match generate_bitmap self (phase self) with
      | Some bitmap => Some ([], (AtDisplay bitmap, self))
      | None => Some ([], (Raised, self))
      end
  | AtDisplay bitmap => Some (display_bitmap bitmap, (AtCompare bitmap, self))
  | AtCompare bitmap =>
      match middle_row_brightness bitmap with
      | Some m => let '(played, self1) := compare self m in
                  Some (played, (AtAdvance, self1))
      | None => Some ([], (Raised, self))
      end
  | AtAdvance => Some ([], (AtSleep, advance self))
  | AtSleep => Some ([Sleep speed], (AtWhile, self))
  | Returned => None
  | Raised => None
  end.

(** The coroutine runs in an event loop next to other callbacks.  A
    transition is a statement of the coroutine, or a call of
    [stop_animation] from outside.  asyncio runs other callbacks only
    while the coroutine is suspended (line 95); the relation lets the call
    happen at any control point, which covers that case. *)
Inductive trans : Config -> list Event -> Config -> Prop :=
| trans_step c ev c' : step c = Some (ev, c') -> trans c ev c'
| trans_stop pc self : trans (pc, self) [] (pc, stop_animation self).

Inductive exec : Config -> list Event -> Config -> Prop :=
| exec_nil c : exec c [] c
| exec_cons c ev c1 tr c2 :
    trans c ev c1 -> exec c1 tr c2 -> exec c (ev ++ tr) c2.

(** The grid writes of a trace. *)
Definition is_grid_write (e : Event) : bool :=
  match e with
  | LedAll _ | LedSet _ _ _ => true
  | _ => false
  end.


Definition is_tone (e : Event) : bool :=
  match e with
  | SdPlay _ _ => true
  | _ => false
  end.

(** How many tones a trace starts. *)
Definition tones (tr : list Event) : nat := length (filter is_tone tr).

(** [start_animation] run as a function, for at most [n] passes of the
    loop and with no other task touching the object: line 77, then the
    [while] of line 78. *)
Fixpoint while_connected (n : nat) (self : App) : option (list Event * App) :=
  match n with
  | O => Some ([], self)
  | S k =>
      if connected self then
        '(ev, s1) <- iteration self ;;
        '(tr, s2) <- while_connected k s1 ;;
        Some (ev ++ tr, s2)
      else Some ([], self)
  end.

Definition start_animation (n : nat) (self : App) : option (list Event * App) :=
  while_connected n (entered self).

(** ** Vocabulary of the statements *)

(** The sample a display column reads, [int(col_x)]. *)
Definition sample_index (col : Z) : Z := Np.int (col_x col).

(** The row a column lights and the level it gets (lines 39 and 40), with
    the array reads made total. *)
Definition row_of (self : App) (ph : R) (col : Z) : Z :=
  Np.int (Np.round (nth (Z.to_nat (sample_index col)) (wave_scaled self ph) 0)).

Definition level_of (self : App) (ph : R) (col : Z) : Z :=
  Np.int (nth (Z.to_nat (sample_index col)) (brightness self ph) 0).

(** Entry [(r, c)] of a bitmap, and its column [c]. *)
Definition cell (b : Bitmap) (r c : nat) : Z := nth c (nth r b []) 0%Z.

Definition column (b : Bitmap) (c : nat) : list Z :=
  map (fun row => nth c row 0%Z) b.

Definition nonzero (v : Z) : bool := negb (v =? 0)%Z.

Definition count_nonzero (l : list Z) : nat := length (filter nonzero l).

(** A [rows] by [cols] array. *)
Definition shape (b : Bitmap) (rows cols : nat) : Prop :=
  length b = rows /\ Forall (fun row => length row = cols) b.

(** The bitmap once the columns below [j] are done. *)
Definition drawn (self : App) (ph : R) (j : nat) (b : Bitmap) : Prop :=
  shape b 8 8 /\
  forall r c, cell b r c =
              if ((c <? j)%nat && (Z.of_nat r =? row_of self ph (Z.of_nat c))%Z)
              then level_of self ph (Z.of_nat c) else 0%Z.

(** Line 94 on the phase alone. *)
Definition next_phase (p : R) : R := p + (phase_increment + 0.05 * sin p).

(** The recurrence the specification gives for the phase. *)
Fixpoint phase_seq (n : nat) : R :=
  match n with
  | O => 0
  | S k => phase_seq k + 0.1 + 0.05 * sin (phase_seq k)
  end.


(** What holds of every configuration the coroutine reaches: the frame
    it carries is 8 by 8, and no exception was raised. *)
Definition frame_shaped (c : Config) : Prop :=
  match fst c with
  | AtDisplay bitmap | AtCompare bitmap => shape bitmap 8 8
  | Raised => False
  | _ => True
  end.


(** A grid write that lights a cell. *)
Definition lit (e : Event) : bool :=
  match e with
  | LedSet _ _ level => nonzero level
  | _ => false
  end.

(** The coroutine left alone: statements of the loop and nothing else. *)
Inductive run : Config -> list Event -> Config -> Prop :=
| run_nil c : run c [] c
| run_cons c ev c1 tr c2 :
    step c = Some (ev, c1) -> run c1 tr c2 -> run c (ev ++ tr) c2.

(** How many times a trace clears the grid, that is, how many frames it
    shows. *)
Definition is_clear (e : Event) : bool :=
  match e with
  | LedAll _ => true
  | _ => false
  end.

Definition frames (tr : list Event) : nat := length (filter is_clear tr).

(** A grid write that lights a cell of column [c]. *)
Definition lit_in_column (c : Z) (e : Event) : bool :=
  match e with
  | LedSet x _ level => (x =? c)%Z && nonzero level
  | _ => false
  end.

(** *** Line 94 as the machine computes it

    The rest of the file takes float arithmetic to be exact.  For the growth
    of the phase that is not good enough, so line 94 is modelled twice more
    with the rounding written out. *)

(** A rounding [rnd] of the reals to the floats, to the nearest: it is
    monotone, leaves floats alone, is symmetric, and misses its argument by
    at most the relative error [eps] and, where the result is subnormal,
    the absolute error [eta].  For binary64 [eps] is 2^-53 and [eta] is
    2^-1075 (the exponent range is taken unbounded above). *)
Definition rounding (eps eta : R) (rnd : R -> R) : Prop :=
  (forall x y, x <= y -> rnd x <= rnd y) /\
  (forall x, rnd (rnd x) = rnd x) /\
  (forall x, rnd (- x) = - rnd x) /\
  (forall x, Rabs (rnd x - x) <= eps * Rabs x + eta).

(** The right-hand side of line 94, [phase_increment + 0.05 * np.sin(phase)]:
    two literals, the sine as the library computes it ([fsin]), a product
    and a sum, each rounded. *)
Definition increment_rounded (rnd fsin : R -> R) (p : R) : R :=
  rnd (rnd phase_increment + rnd (rnd 0.05 * fsin p)).

(** Line 94, [self.phase += ...]. *)
Definition advance_rounded (rnd fsin : R -> R) (p : R) : R :=
  rnd (p + increment_rounded rnd fsin p).


#[local] Set Warnings "-inexact-float".


#[local] Set Warnings "inexact-float".

(** * Properties *)

(** Settles the comparisons of reals a goal branches on. *)
Ltac decide_Rlt :=
  repeat match goal with
         | |- context [Rlt_dec ?a ?b] => destruct (Rlt_dec a b); try lra
         end.

(** ** Integer parts and rounding *)

Lemma int_nonneg x : 0 <= x -> Np.int x = Int_part x.
Proof.
  intros H. unfold Np.int.
  destruct (Rle_dec 0 x); [reflexivity | contradiction].
Qed.

Lemma Int_part_IZR z : Int_part (IZR z) = z.
Proof. symmetry. apply Int_part_spec. lra. Qed.

Lemma int_IZR z : Np.int (IZR z) = z.
Proof.
  unfold Np.int. destruct (Rle_dec 0 (IZR z)).
  - apply Int_part_IZR.
  - rewrite <- opp_IZR, Int_part_IZR. lia.
Qed.

Lemma Int_part_between x lo hi :
  IZR lo <= x <= IZR hi -> (lo <= Int_part x <= hi)%Z.
Proof.
  intros [Hlo Hhi]. destruct (base_Int_part x) as [H1 H2]. split.
  - assert (H : IZR lo < IZR (Int_part x + 1)) by (rewrite plus_IZR; lra).
    apply lt_IZR in H. lia.
  - apply le_IZR. lra.
Qed.

Lemma int_floor x k : 0 <= x -> IZR k <= x < IZR k + 1 -> Np.int x = k.
Proof.
  intros H0 H. rewrite int_nonneg by assumption.
  symmetry. apply Int_part_spec. lra.
Qed.

Lemma int_between x lo hi :
  (0 <= lo)%Z -> IZR lo <= x <= IZR hi -> (lo <= Np.int x <= hi)%Z.
Proof.
  intros Hlo H. rewrite int_nonneg.
  - apply Int_part_between; assumption.
  - apply IZR_le in Hlo. lra.
Qed.

(** [np.round] returns an integer, and stays between integer bounds. *)
Lemma round_between x lo hi :
  IZR lo <= x <= IZR hi -> exists z, Np.round x = IZR z /\ (lo <= z <= hi)%Z.
Proof.
  intros H. pose proof (Int_part_between x lo hi H) as Hf.
  destruct (base_Int_part x) as [H1 H2]. unfold Np.round.
  assert (Hup : Int_part x = hi \/ (Int_part x + 1 <= hi)%Z) by lia.
  assert (Hhi : Int_part x = hi -> x - IZR (Int_part x) < 1 / 2).
  { intros E. rewrite E. lra. }
  destruct (Rlt_dec (x - IZR (Int_part x)) (1 / 2)) as [Hd | Hd].
  - exists (Int_part x). split; [reflexivity | lia].
  - assert ((Int_part x + 1 <= hi)%Z) by (destruct Hup; [exfalso; auto | assumption]).
    destruct (Rlt_dec (1 / 2) (x - IZR (Int_part x))).
    + exists (Int_part x + 1)%Z. split; [reflexivity | lia].
    + destruct (Z.even (Int_part x)).
      * exists (Int_part x). split; [reflexivity | lia].
      * exists (Int_part x + 1)%Z. split; [reflexivity | lia].
Qed.

(** A tie goes to the even neighbour. *)
Lemma round_tie k : Np.round (IZR k + 1 / 2) = if Z.even k then IZR k else IZR (k + 1).
Proof.
  assert (E : Int_part (IZR k + 1 / 2) = k) by (symmetry; apply Int_part_spec; lra).
  unfold Np.round. rewrite E.
  destruct (Rlt_dec (IZR k + 1 / 2 - IZR k) (1 / 2)); [lra |].
  destruct (Rlt_dec (1 / 2) (IZR k + 1 / 2 - IZR k)); [lra | reflexivity].
Qed.

(** Above the half, [np.round] goes up. *)
Lemma round_up x k : IZR k + 1 / 2 < x < IZR k + 1 -> Np.round x = IZR (k + 1).
Proof.
  intros H.
  assert (E : Int_part x = k) by (symmetry; apply Int_part_spec; lra).
  unfold Np.round. rewrite E.
  destruct (Rlt_dec (x - IZR k) (1 / 2)); [lra |].
  destruct (Rlt_dec (1 / 2) (x - IZR k)); [reflexivity | lra].
Qed.

Example int_truncates : Np.int (5 / 2) = 2%Z /\ Np.int (- 5 / 2) = (-2)%Z.
Proof.
  split.
  - apply int_floor; lra.
  - unfold Np.int. destruct (Rle_dec 0 (- 5 / 2)); [lra |].
    replace (- (- 5 / 2)) with (5 / 2) by lra.
    rewrite <- (Int_part_spec (5 / 2) 2) by lra. reflexivity.
Qed.

Example round_half_to_even :
  Np.round (5 / 2) = 2 /\ Np.round (7 / 2) = 4 /\ Np.round (62 / 7) = 9.
Proof.
  split; [| split].
  - replace (5 / 2) with (IZR 2 + 1 / 2) by lra. apply round_tie.
  - replace (7 / 2) with (IZR 3 + 1 / 2) by lra. apply round_tie.
  - apply (round_up _ 8). lra.
Qed.

(** ** The two rescalings of a sample *)

Lemma interp_rows w :
  Np.interp w [-1; 1] [0; IZR (bitmap_size - 1)] =
  if Rlt_dec w (-1) then 0 else if Rlt_dec w 1 then 7 / 2 * (w + 1) else 7.
Proof.
  unfold Np.interp, Np.interp_from. change (IZR (bitmap_size - 1)) with 7.
  destruct (Rlt_dec w (-1)); [reflexivity |].
  destruct (Rlt_dec w 1); [lra | reflexivity].
Qed.

Lemma interp_levels a :
  Np.interp a [0; 1] [1; IZR brightness_factor] =
  if Rlt_dec a 0 then 1 else if Rlt_dec a 1 then 14 * a + 1 else 15.
Proof.
  unfold Np.interp, Np.interp_from. change (IZR brightness_factor) with 15.
  destruct (Rlt_dec a 0); [reflexivity |].
  destruct (Rlt_dec a 1); [lra | reflexivity].
Qed.

Example interp_values :
  Np.interp (1 / 2) [0; 1] [1; IZR brightness_factor] = 8 /\
  Np.interp 2 [0; 1] [1; IZR brightness_factor] = 15 /\
  Np.interp (- 3) [-1; 1] [0; IZR (bitmap_size - 1)] = 0.
Proof.
  rewrite !interp_levels, interp_rows. repeat split; decide_Rlt.
Qed.

(** [np.interp] clamps: whatever the sample, the row position is in
    [0, 7] and the level in [1, 15]. *)
Lemma interp_rows_between w :
  0 <= Np.interp w [-1; 1] [0; IZR (bitmap_size - 1)] <= 7.
Proof.
  rewrite interp_rows.
  destruct (Rlt_dec w (-1)); [lra |]. destruct (Rlt_dec w 1); lra.
Qed.

Lemma interp_levels_between a :
  1 <= Np.interp a [0; 1] [1; IZR brightness_factor] <= 15.
Proof.
  rewrite interp_levels.
  destruct (Rlt_dec a 0); [lra |]. destruct (Rlt_dec a 1); lra.
Qed.

(** ** The sample each column reads *)

Lemma arange_8 : Np.arange bitmap_size = [0; 1; 2; 3; 4; 5; 6; 7].
Proof. reflexivity. Qed.

Lemma col_positions :
  Np.linspace 0 (IZR (internal_resolution - 1)) (Z.to_nat bitmap_size) true
  = map (fun i => INR i * (31 / 7) + 0) (seq 0 8).
Proof.
  unfold Np.linspace. change (Z.to_nat bitmap_size) with 8%nat.
  change (internal_resolution - 1)%Z with 31%Z.
  apply map_ext. intros i. change (8 - 1)%nat with 7%nat.
  replace (INR 7) with 7 by (simpl; lra). lra.
Qed.

(** Line 38 gives column [c] the position [31 c / 7]. *)
Lemma col_x_table :
  col_x 0 = 0 /\ col_x 1 = 31 / 7 /\ col_x 2 = 62 / 7 /\ col_x 3 = 93 / 7 /\
  col_x 4 = 124 / 7 /\ col_x 5 = 155 / 7 /\ col_x 6 = 186 / 7 /\ col_x 7 = 31.
Proof.
  unfold col_x. rewrite arange_8, col_positions.
  cbn [seq map Np.interp Np.interp_from INR].
  repeat split; decide_Rlt.
Qed.

(** [int] cuts the position down to the sample below it. *)
Lemma sample_index_table :
  map sample_index (Np.range bitmap_size) = [0; 4; 8; 13; 17; 22; 26; 31]%Z.
Proof.
  destruct col_x_table as (E0 & E1 & E2 & E3 & E4 & E5 & E6 & E7).
  change (Np.range bitmap_size) with [0; 1; 2; 3; 4; 5; 6; 7]%Z.
  unfold sample_index. cbn [map]. rewrite E0, E1, E2, E3, E4, E5, E6, E7.
  repeat f_equal; apply int_floor; lra.
Qed.

Lemma sample_index_cases c :
  (c < 8)%nat ->
  sample_index (Z.of_nat c) = nth c [0; 4; 8; 13; 17; 22; 26; 31]%Z 0%Z.
Proof.
  intros H. rewrite <- sample_index_table.
  change (Np.range bitmap_size) with (map Z.of_nat (seq 0 8)).
  rewrite map_map.
  do 8 (destruct c as [| c]; [reflexivity |]). lia.
Qed.

Lemma sample_index_range c :
  (c < 8)%nat -> (0 <= sample_index (Z.of_nat c) < 32)%Z.
Proof.
  intros H. rewrite sample_index_cases by assumption.
  do 8 (destruct c as [| c]; [cbn; lia |]). lia.
Qed.

(** ** Arrays *)

Lemma index_in_range len i :
  (i < len)%nat -> Np.index len (Z.of_nat i) = Some i.
Proof.
  intros H. unfold Np.index.
  replace ((0 <=? Z.of_nat i) && (Z.of_nat i <? Z.of_nat len))%Z with true.
  - rewrite Nat2Z.id. reflexivity.
  - symmetry. apply andb_true_iff. split; [apply Z.leb_le | apply Z.ltb_lt]; lia.
Qed.

Lemma getitem_in_range {A : Type} (a : list A) (i : Z) (d : A) :
  (0 <= i < Z.of_nat (length a))%Z ->
  Np.getitem a i = Some (nth (Z.to_nat i) a d).
Proof.
  intros H. unfold Np.getitem.
  rewrite <- (Z2Nat.id i) at 1 by lia.
  rewrite index_in_range by lia.
  apply nth_error_nth'. lia.
Qed.

Lemma update_length {A : Type} (l : list A) k v :
  length (Np.update l k v) = length l.
Proof.
  revert k. induction l as [| h t IH]; intros [| k]; simpl; auto.
Qed.

Lemma update_nth {A : Type} (l : list A) k v d i :
  (k < length l)%nat ->
  nth i (Np.update l k v) d = if (i =? k)%nat then v else nth i l d.
Proof.
  revert k i. induction l as [| h t IH]; intros k i H; simpl in H; [lia |].
  destruct k as [| k], i as [| i]; simpl; try reflexivity.
  apply IH. lia.
Qed.

Lemma update_Forall {A : Type} (P : A -> Prop) (l : list A) k v :
  Forall P l -> P v -> Forall P (Np.update l k v).
Proof.
  intros Hl Hv. revert k.
  induction Hl as [| h t Hh Ht IH]; intros [| k]; simpl; auto.
Qed.

Lemma shape_row b rows cols r :
  shape b rows cols -> (r < rows)%nat -> length (nth r b []) = cols.
Proof.
  intros [Hlen Hall] Hr. rewrite Forall_forall in Hall.
  apply Hall, nth_In. lia.
Qed.

(** Writing one entry of a well-shaped array inside its bounds succeeds,
    keeps the shape and changes that entry alone. *)
Lemma setitem2_in_range b rows cols r c v :
  shape b rows cols -> (r < rows)%nat -> (c < cols)%nat ->
  exists b', Np.setitem2 b (Z.of_nat r) (Z.of_nat c) v = Some b' /\
             shape b' rows cols /\
             forall r' c', cell b' r' c' =
                           if ((r' =? r) && (c' =? c))%nat then v else cell b r' c'.
Proof.
  intros Hs Hr Hc. pose proof (shape_row _ _ _ _ Hs Hr) as Hrow.
  destruct Hs as [Hlen Hall]. unfold Np.setitem2.
  rewrite index_in_range by lia.
  rewrite (nth_error_nth' b []) by lia.
  rewrite Hrow, index_in_range by lia.
  eexists. split; [reflexivity |]. split.
  - split.
    + rewrite update_length. assumption.
    + apply update_Forall; [assumption |]. rewrite update_length. assumption.
  - intros r' c'. unfold cell.
    rewrite update_nth by lia.
    destruct (Nat.eqb_spec r' r) as [-> | Hne]; [| reflexivity].
    rewrite update_nth by lia. reflexivity.
Qed.

Lemma zeros_shape rows cols : shape (Np.zeros rows cols) rows cols.
Proof.
  unfold Np.zeros. split.
  - apply repeat_length.
  - apply Forall_forall. intros row H.
    apply repeat_spec in H. subst. apply repeat_length.
Qed.

Lemma nth_repeat_default {A : Type} (d : A) n i : nth i (repeat d n) d = d.
Proof.
  revert i. induction n as [| n IH]; intros [| i]; simpl; auto.
Qed.

Lemma zeros_cell rows cols r c : cell (Np.zeros rows cols) r c = 0%Z.
Proof.
  unfold cell, Np.zeros.
  destruct (Nat.lt_ge_cases r rows) as [H | H].
  - rewrite (nth_indep _ [] (repeat 0%Z cols)) by (rewrite repeat_length; lia).
    rewrite nth_repeat_default. apply nth_repeat_default.
  - rewrite (nth_overflow (repeat (repeat 0%Z cols) rows))
      by (rewrite repeat_length; lia).
    destruct c; reflexivity.
Qed.

Lemma map_by_index {A B : Type} (f : A -> B) (l : list A) (d : A) :
  map f l = map (fun i => f (nth i l d)) (seq 0 (length l)).
Proof.
  induction l as [| h t IH]; simpl; [reflexivity |].
  f_equal. rewrite <- seq_shift, map_map. exact IH.
Qed.

(** A column of a well-shaped array, entry by entry. *)
Lemma column_cells b rows cols c :
  shape b rows cols -> column b c = map (fun r => cell b r c) (seq 0 rows).
Proof.
  intros [Hlen _]. subst rows. unfold column, cell.
  apply (map_by_index (fun row => nth c row 0%Z) b []).
Qed.

(** A list that is [v] at one place and zero elsewhere. *)
Lemma count_nonzero_single (f : nat -> Z) k v a n :
  (forall r, f r = if (r =? k)%nat then v else 0%Z) ->
  count_nonzero (map f (seq a n)) =
  if ((a <=? k) && (k <? a + n))%nat && nonzero v then 1%nat else 0%nat.
Proof.
  intros Hf. unfold count_nonzero. revert a.
  induction n as [| n IH]; intros a.
  - replace (k <? a + 0)%nat with (negb (a <=? k)%nat).
    + destruct (a <=? k)%nat; reflexivity.
    + rewrite Nat.add_0_r, Nat.ltb_antisym. reflexivity.
  - cbn [seq map filter]. rewrite Hf.
    destruct (Nat.eqb_spec a k) as [-> | Hne].
    + specialize (IH (S k)).
      replace ((S k <=? k)%nat) with false in IH
        by (symmetry; apply Nat.leb_gt; lia).
      cbn [andb] in IH.
      replace ((k <=? k) && (k <? k + S n))%nat with true
        by (symmetry; apply andb_true_iff; split;
            [apply Nat.leb_le | apply Nat.ltb_lt]; lia).
      cbn [andb]. destruct (nonzero v); cbn [length]; rewrite IH; reflexivity.
    + change (nonzero 0) with false. cbn iota. rewrite IH.
      replace ((S a <=? k) && (k <? S a + n))%nat
        with ((a <=? k) && (k <? a + S n))%nat; [reflexivity |].
      destruct (Nat.leb_spec a k), (Nat.leb_spec (S a) k),
               (Nat.ltb_spec k (a + S n)), (Nat.ltb_spec k (S a + n));
        try reflexivity; lia.
Qed.

(** ** generate_bitmap, column by column *)

Section Render.

Variable self : App.
Variable ph : R.

Lemma wave_length : length (wave self ph) = 32%nat.
Proof.
  unfold wave, sample_x, Np.linspace. rewrite length_map, length_map, length_seq.
  reflexivity.
Qed.

Lemma wave_scaled_length : length (wave_scaled self ph) = 32%nat.
Proof. unfold wave_scaled. rewrite length_map. apply wave_length. Qed.

Lemma brightness_length : length (brightness self ph) = 32%nat.
Proof. unfold brightness. rewrite length_map. apply wave_length. Qed.

Lemma wave_scaled_between :
  Forall (fun v => 0 <= v <= 7) (wave_scaled self ph).
Proof.
  unfold wave_scaled. apply Forall_forall. intros v Hv.
  apply in_map_iff in Hv. destruct Hv as (w & <- & _).
  apply interp_rows_between.
Qed.

Lemma brightness_between :
  Forall (fun v => 1 <= v <= 15) (brightness self ph).
Proof.
  unfold brightness. apply Forall_forall. intros v Hv.
  apply in_map_iff in Hv. destruct Hv as (w & <- & _).
  apply interp_levels_between.
Qed.

Lemma row_of_range c : (c < 8)%nat -> (0 <= row_of self ph (Z.of_nat c) < 8)%Z.
Proof.
  intros Hc. pose proof (sample_index_range c Hc) as Hi. unfold row_of.
  set (k := Z.to_nat (sample_index (Z.of_nat c))).
  assert (Hk : (k < length (wave_scaled self ph))%nat)
    by (rewrite wave_scaled_length; subst k; lia).
  pose proof wave_scaled_between as Hall. rewrite Forall_forall in Hall.
  specialize (Hall _ (nth_In _ 0 Hk)).
  destruct (round_between _ 0 7 Hall) as (z & -> & Hz).
  rewrite int_IZR. lia.
Qed.

Lemma level_of_range c : (c < 8)%nat -> (1 <= level_of self ph (Z.of_nat c) <= 15)%Z.
Proof.
  intros Hc. pose proof (sample_index_range c Hc) as Hi. unfold level_of.
  set (k := Z.to_nat (sample_index (Z.of_nat c))).
  assert (Hk : (k < length (brightness self ph))%nat)
    by (rewrite brightness_length; subst k; lia).
  pose proof brightness_between as Hall. rewrite Forall_forall in Hall.
  specialize (Hall _ (nth_In _ 0 Hk)).
  apply int_between; [lia | assumption].
Qed.

(** Both array reads of the loop body succeed, so the body is the one
    write at [(row_of, col)]. *)
Lemma set_column_write b c :
  (c < 8)%nat ->
  set_column self ph b (Z.of_nat c) =
  Np.setitem2 b (row_of self ph (Z.of_nat c)) (Z.of_nat c) (level_of self ph (Z.of_nat c)).
Proof.
  intros Hc. pose proof (sample_index_range c Hc) as Hi.
  unfold set_column, row_of, level_of. fold (sample_index (Z.of_nat c)).
  rewrite (getitem_in_range (wave_scaled self ph) _ 0)
    by (rewrite wave_scaled_length; lia).
  rewrite (getitem_in_range (brightness self ph) _ 0)
    by (rewrite brightness_length; lia).
  reflexivity.
Qed.

Lemma set_column_drawn b j :
  (j < 8)%nat -> drawn self ph j b ->
  exists b', set_column self ph b (Z.of_nat j) = Some b' /\ drawn self ph (S j) b'.
Proof.
  intros Hj [Hs Hcells]. pose proof (row_of_range j Hj) as Hr.
  destruct (setitem2_in_range b 8 8 (Z.to_nat (row_of self ph (Z.of_nat j))) j
              (level_of self ph (Z.of_nat j)) Hs) as (b' & E & Hs' & Hc'); [lia | lia |].
  rewrite Z2Nat.id in E by lia.
  exists b'. split; [rewrite set_column_write by assumption; exact E |].
  split; [exact Hs' |].
  intros r c. rewrite Hc', Hcells.
  destruct (Nat.eqb_spec c j) as [-> | Hne].
  - replace (j <? j)%nat with false by (symmetry; apply Nat.ltb_ge; lia).
    replace (j <? S j)%nat with true by (symmetry; apply Nat.ltb_lt; lia).
    rewrite andb_true_r. cbn [andb].
    destruct (Nat.eqb_spec r (Z.to_nat (row_of self ph (Z.of_nat j)))) as [-> | Hr'].
    + rewrite Z2Nat.id by lia. rewrite Z.eqb_refl. reflexivity.
    + destruct (Z.eqb_spec (Z.of_nat r) (row_of self ph (Z.of_nat j))) as [E' | _];
        [| reflexivity].
      exfalso. apply Hr'. rewrite <- E'. rewrite Nat2Z.id. reflexivity.
  - rewrite andb_false_r.
    replace (c <? S j)%nat with (c <? j)%nat; [reflexivity |].
    destruct (Nat.ltb_spec c j), (Nat.ltb_spec c (S j)); try reflexivity; lia.
Qed.

Lemma columns_drawn n : forall j b,
  (j + n <= 8)%nat -> drawn self ph j b ->
  exists b',
    fold_left (fun acc col => bitmap <- acc ;; set_column self ph bitmap col)
      (map Z.of_nat (seq j n)) (Some b) = Some b' /\ drawn self ph (j + n) b'.
Proof.
  induction n as [| n IH]; intros j b Hle Hd.
  - exists b. rewrite Nat.add_0_r. split; [reflexivity | assumption].
  - cbn [seq map fold_left bind].
    destruct (set_column_drawn b j) as (b1 & -> & Hd1); [lia | assumption |].
    destruct (IH (S j) b1) as (b' & E & Hd'); [lia | assumption |].
    exists b'. split; [exact E |].
    replace (j + S n)%nat with (S j + n)%nat by lia. assumption.
Qed.

(** The closed form of the result: an 8 by 8 array that holds, in every
    column [c], the level of the column at row [row_of c] and zero
    elsewhere. *)
Lemma generate_bitmap_closed_form :
  exists b, generate_bitmap self ph = Some b /\
            shape b 8 8 /\
            forall r c, (c < 8)%nat ->
                        cell b r c =
                        if (Z.of_nat r =? row_of self ph (Z.of_nat c))%Z
                        then level_of self ph (Z.of_nat c) else 0%Z.
Proof.
  destruct (columns_drawn 8 0 (Np.zeros 8 8)) as (b & E & Hs & Hc).
  - lia.
  - split; [apply zeros_shape |]. intros r c. apply zeros_cell.
  - exists b. split; [exact E |]. split; [exact Hs |].
    intros r c Hlt. rewrite Hc.
    replace (c <? 0 + 8)%nat with true by (symmetry; apply Nat.ltb_lt; lia).
    reflexivity.
Qed.

End Render.

(** ** What every rendered bitmap looks like *)

Lemma rendered_cells self ph b :
  generate_bitmap self ph = Some b ->
  shape b 8 8 /\
  forall r c, (c < 8)%nat ->
              cell b r c =
              if (r =? Z.to_nat (row_of self ph (Z.of_nat c)))%nat
              then level_of self ph (Z.of_nat c) else 0%Z.
Proof.
  intros E. destruct (generate_bitmap_closed_form self ph) as (b' & E' & Hs & Hc).
  rewrite E in E'. injection E' as <-. split; [exact Hs |].
  intros r c Hlt. rewrite Hc by assumption.
  pose proof (row_of_range self ph c Hlt) as Hr.
  destruct (Z.eqb_spec (Z.of_nat r) (row_of self ph (Z.of_nat c))) as [E1 | N1],
           (Nat.eqb_spec r (Z.to_nat (row_of self ph (Z.of_nat c)))) as [E2 | N2];
    try reflexivity; exfalso.
  - apply N2. rewrite <- E1, Nat2Z.id. reflexivity.
  - apply N1. rewrite E2, Z2Nat.id by lia. reflexivity.
Qed.

Lemma rendered_values self ph b :
  generate_bitmap self ph = Some b ->
  Forall (fun row => length row = 8%nat /\ Forall (fun v => (0 <= v <= 15)%Z) row) b.
Proof.
  intros E. destruct (rendered_cells self ph b E) as ([Hlen Hrows] & Hc).
  rewrite Forall_forall in Hrows. apply Forall_forall. intros row Hin.
  split; [apply Hrows; assumption |].
  destruct (In_nth _ _ [] Hin) as (r & Hr & <-).
  apply Forall_forall. intros v Hv.
  destruct (In_nth _ _ 0%Z Hv) as (c & Hcol & <-).
  rewrite (Hrows _ Hin) in Hcol.
  fold (cell b r c). rewrite Hc by assumption.
  pose proof (level_of_range self ph c Hcol).
  destruct (r =? _)%nat; lia.
Qed.

Lemma rendered_column_count self ph b c :
  generate_bitmap self ph = Some b -> (c < 8)%nat ->
  count_nonzero (column b c) = 1%nat.
Proof.
  intros E Hlt. destruct (rendered_cells self ph b E) as (Hs & Hc).
  rewrite (column_cells b 8 8 c Hs).
  rewrite (count_nonzero_single _ (Z.to_nat (row_of self ph (Z.of_nat c)))
             (level_of self ph (Z.of_nat c)))
    by (intros r; apply Hc; assumption).
  pose proof (row_of_range self ph c Hlt) as Hr.
  pose proof (level_of_range self ph c Hlt) as Hv.
  replace ((0 <=? Z.to_nat (row_of self ph (Z.of_nat c))) &&
           (Z.to_nat (row_of self ph (Z.of_nat c)) <? 0 + 8))%nat with true
    by (symmetry; apply andb_true_iff; split;
        [apply Nat.leb_le | apply Nat.ltb_lt]; lia).
  unfold nonzero.
  replace (level_of self ph (Z.of_nat c) =? 0)%Z with false
    by (symmetry; apply Z.eqb_neq; lia).
  reflexivity.
Qed.

(** The renderer reads the wave function and nothing else of the object. *)
Lemma wave_ext s1 s2 ph :
  (forall x, wave_func s1 x = wave_func s2 x) -> wave s1 ph = wave s2 ph.
Proof.
  intros H. unfold wave. apply map_ext. intros xi. rewrite H. reflexivity.
Qed.

Lemma fold_columns_ext (f g : option Bitmap -> Z -> option Bitmap) cols :
  (forall acc col, f acc col = g acc col) ->
  forall acc, fold_left f cols acc = fold_left g cols acc.
Proof.
  intros H. induction cols as [| c t IH]; intros acc; simpl; [reflexivity |].
  rewrite H. apply IH.
Qed.

(** C1: for every phase, with the default sine wave, [generate_bitmap]
    returns an 8 by 8 grid of integers, every entry of which lies in
    [0, 15], and each of the 8 columns has at most one nonzero entry. *)
Theorem generate_bitmap_grid (ph : R) :
  exists b,
    generate_bitmap default_app ph = Some b /\
    length b = 8%nat /\
    Forall (fun row => length row = 8%nat /\
                       Forall (fun v => (0 <= v <= 15)%Z) row) b /\
    Forall (fun c => (count_nonzero (column b c) <= 1)%nat) (seq 0 8).
Proof.
  destruct (generate_bitmap_closed_form default_app ph) as (b & E & [Hlen _] & _).
  exists b. split; [exact E |]. split; [exact Hlen |].
  split; [apply (rendered_values default_app ph); exact E |].
  apply Forall_forall. intros c Hc. apply in_seq in Hc.
  rewrite (rendered_column_count default_app ph b c E) by lia. lia.
Qed.

(** C9: for every phase, with the default sine wave, each column of the
    bitmap has exactly one nonzero entry, and that entry lies in
    [1, 15]. *)
Theorem generate_bitmap_one_per_column (ph : R) :
  exists b,
    generate_bitmap default_app ph = Some b /\
    Forall (fun c =>
              count_nonzero (column b c) = 1%nat /\
              exists r, (r < 8)%nat /\
                        (1 <= cell b r c <= 15)%Z /\
                        forall r', r' <> r -> cell b r' c = 0%Z)
           (seq 0 8).
Proof.
  destruct (generate_bitmap_closed_form default_app ph) as (b & E & _).
  exists b. split; [exact E |].
  destruct (rendered_cells default_app ph b E) as (_ & Hc).
  apply Forall_forall. intros c Hin. apply in_seq in Hin.
  assert (Hlt : (c < 8)%nat) by lia.
  split; [apply (rendered_column_count default_app ph); assumption |].
  pose proof (row_of_range default_app ph c Hlt) as Hr.
  exists (Z.to_nat (row_of default_app ph (Z.of_nat c))).
  split; [lia |]. split.
  - rewrite Hc by assumption. rewrite Nat.eqb_refl.
    apply level_of_range. assumption.
  - intros r' Hne. rewrite Hc by assumption.
    destruct (Nat.eqb_spec r' (Z.to_nat (row_of default_app ph (Z.of_nat c))));
      [contradiction | reflexivity].
Qed.

Lemma generate_bitmap_ext s1 s2 ph :
  (forall x, wave_func s1 x = wave_func s2 x) ->
  generate_bitmap s1 ph = generate_bitmap s2 ph.
Proof.
  intros H. unfold generate_bitmap. apply fold_columns_ext.
  intros acc col. destruct acc as [b |]; [| reflexivity].
  cbn [bind]. unfold set_column, wave_scaled, brightness.
  rewrite (wave_ext s1 s2 ph H). reflexivity.
Qed.

(** C8: [generate_bitmap] is a function of the phase and of the wave
    function alone: two calls with the same phase and the same wave
    function return the same bitmap, whatever the other attributes of the
    object hold at the time of each call. *)
Theorem generate_bitmap_deterministic (s1 s2 : App) (ph1 ph2 : R) :
  ph1 = ph2 ->
  (forall x, wave_func s1 x = wave_func s2 x) ->
  generate_bitmap s1 ph1 = generate_bitmap s2 ph2.
Proof.
  intros <- H. apply generate_bitmap_ext. exact H.
Qed.

Lemma generate_bitmap_deterministic_witness :
  generate_bitmap default_app 0 =
  generate_bitmap {| phase := 1; wave_func := sin; connected := true;
                     prev_brightness := 7 |} 0.
Proof.
  apply (generate_bitmap_deterministic default_app
           {| phase := 1; wave_func := sin; connected := true;
              prev_brightness := 7 |} 0 0).
  - reflexivity.
  - intros x. reflexivity.
Defined.

(** ** The column loop against its description *)

Lemma nth_map_seq {B : Type} (f : nat -> B) n i d :
  (i < n)%nat -> nth i (map f (seq 0 n)) d = f i.
Proof.
  intros H.
  rewrite (nth_indep _ d (f 0%nat)) by (rewrite length_map, length_seq; lia).
  rewrite (map_nth f), seq_nth by lia. reflexivity.
Qed.

(** Sample [i] of the wave is taken at a quarter of a column per step. *)
Lemma wave_nth self ph i :
  (i < 32)%nat ->
  nth i (wave self ph) 0 = wave_func self (2 * PI * (INR i / 32) + ph).
Proof.
  intros H. unfold wave, sample_x, Np.linspace. rewrite map_map.
  change (Z.to_nat internal_resolution) with 32%nat.
  rewrite nth_map_seq by assumption.
  change (IZR amplitude) with 1. change (IZR bitmap_size) with 8.
  replace (INR 32) with 32 by (simpl; lra).
  rewrite Rmult_1_l. f_equal. lra.
Qed.

Lemma brightness_nth self ph i :
  (i < 32)%nat ->
  nth i (brightness self ph) 0 =
  Np.interp (Rabs (nth i (wave self ph) 0)) [0; 1] [1; IZR brightness_factor].
Proof.
  intros H. unfold brightness.
  rewrite (nth_indep _ 0 ((fun w => Np.interp (Rabs w) [0; 1] [1; IZR brightness_factor]) 0))
    by (rewrite length_map, wave_length; assumption).
  rewrite (map_nth (fun w => Np.interp (Rabs w) [0; 1] [1; IZR brightness_factor])).
  reflexivity.
Qed.

Lemma col_x_linear c : (c < 8)%nat -> col_x (Z.of_nat c) = 31 * INR c / 7.
Proof.
  intros H. destruct col_x_table as (E0 & E1 & E2 & E3 & E4 & E5 & E6 & E7).
  do 8 (destruct c as [| c];
        [cbn [Z.of_nat Pos.of_succ_nat Pos.succ];
         first [rewrite E0 | rewrite E1 | rewrite E2 | rewrite E3
               | rewrite E4 | rewrite E5 | rewrite E6 | rewrite E7];
         simpl; lra |]).
  lia.
Qed.

Lemma sample_index_floor c :
  (c < 8)%nat -> sample_index (Z.of_nat c) = (31 * Z.of_nat c / 7)%Z.
Proof.
  intros H. rewrite sample_index_cases by assumption.
  do 8 (destruct c as [| c]; [reflexivity |]). lia.
Qed.

Lemma inv_sqrt2_between : 7 / 10 < 1 / sqrt 2 < 71 / 100.
Proof.
  assert (H2 : 0 < sqrt 2) by (apply sqrt_lt_R0; lra).
  assert (Hsq : sqrt 2 * sqrt 2 = 2) by (apply sqrt_sqrt; lra).
  assert (Hs : 0 < 1 / sqrt 2) by (apply Rdiv_lt_0_compat; lra).
  assert (Hss : (1 / sqrt 2) * (1 / sqrt 2) = 1 / 2).
  { field_simplify; [rewrite <- Rsqr_pow2, Rsqr_sqrt; lra | lra]. }
  split; nra.
Qed.

(** C3, refuted as stated.  Column 2 sits at position 62/7 = 8.857...:
    the code reads sample 8, the nearest sample is 9.  And at phase pi/4
    column 0 reads the sample sin(pi/4), whose level 1 + 14 sin(pi/4) =
    10.899... is stored as 10, where rounding would give 11. *)
Lemma column_sample_not_nearest :
  col_x 2 = 62 / 7 /\
  sample_index 2 = 8%Z /\
  Np.int (Np.round (col_x 2)) = 9%Z /\
  sample_index 2 <> Np.int (Np.round (col_x 2)) /\
  level_of default_app (PI / 4) 0 = 10%Z /\
  Np.int (Np.round (nth (Z.to_nat (sample_index 0)) (brightness default_app (PI / 4)) 0))
  = 11%Z.
Proof.
  destruct col_x_table as (_ & _ & E2 & _).
  assert (S2 : sample_index 2 = 8%Z) by (apply (sample_index_cases 2); lia).
  assert (N2 : Np.int (Np.round (col_x 2)) = 9%Z).
  { rewrite E2, (round_up _ 8) by lra. apply int_IZR. }
  assert (B0 : nth (Z.to_nat (sample_index 0)) (brightness default_app (PI / 4)) 0
               = 14 * (1 / sqrt 2) + 1).
  { assert (S0 : sample_index 0 = 0%Z) by (apply (sample_index_cases 0); lia).
    rewrite S0. cbn [Z.to_nat].
    rewrite brightness_nth, wave_nth by lia. cbn [wave_func default_app init INR].
    replace (2 * PI * (0 / 32) + PI / 4) with (PI / 4) by lra.
    rewrite sin_PI4. pose proof inv_sqrt2_between as Hb.
    rewrite Rabs_pos_eq by lra. rewrite interp_levels.
    destruct (Rlt_dec (1 / sqrt 2) 0); [lra |].
    destruct (Rlt_dec (1 / sqrt 2) 1); lra. }
  pose proof inv_sqrt2_between as Hb.
  repeat split.
  - exact E2.
  - exact S2.
  - exact N2.
  - rewrite S2, N2. discriminate.
  - unfold level_of. rewrite B0. apply int_floor; lra.
  - rewrite B0, (round_up _ 10) by lra. apply int_IZR.
Qed.

(** C3, amended: for each of the 8 display columns the position among the
    samples is the linear map 31 c / 7 of the column index, cut down by
    [int] to the sample below it (0, 4, 8, 13, 17, 22, 26, 31); the entry
    at (rounded row, column) is the level of that sample cut down to an
    integer, and every other entry of the column is 0. *)
Theorem generate_bitmap_column_entry (ph : R) :
  exists b,
    generate_bitmap default_app ph = Some b /\
    Forall (fun c =>
              col_x (Z.of_nat c) = 31 * INR c / 7 /\
              sample_index (Z.of_nat c) = (31 * Z.of_nat c / 7)%Z /\
              exists ws br,
                Np.getitem (wave_scaled default_app ph) (sample_index (Z.of_nat c))
                = Some ws /\
                Np.getitem (brightness default_app ph) (sample_index (Z.of_nat c))
                = Some br /\
                (0 <= Np.int (Np.round ws) < 8)%Z /\
                cell b (Z.to_nat (Np.int (Np.round ws))) c = Int_part br /\
                forall r, r <> Z.to_nat (Np.int (Np.round ws)) -> cell b r c = 0%Z)
           (seq 0 8).
Proof.
  destruct (generate_bitmap_closed_form default_app ph) as (b & E & _).
  exists b. split; [exact E |].
  destruct (rendered_cells default_app ph b E) as (_ & Hc).
  apply Forall_forall. intros c Hin. apply in_seq in Hin.
  assert (Hlt : (c < 8)%nat) by lia.
  pose proof (sample_index_range c Hlt) as Hi.
  pose proof (row_of_range default_app ph c Hlt) as Hr.
  split; [apply col_x_linear; assumption |].
  split; [apply sample_index_floor; assumption |].
  exists (nth (Z.to_nat (sample_index (Z.of_nat c))) (wave_scaled default_app ph) 0),
         (nth (Z.to_nat (sample_index (Z.of_nat c))) (brightness default_app ph) 0).
  split; [apply getitem_in_range; rewrite wave_scaled_length; lia |].
  split; [apply getitem_in_range; rewrite brightness_length; lia |].
  fold (row_of default_app ph (Z.of_nat c)).
  split; [exact Hr |]. split.
  - rewrite Hc by assumption. rewrite Nat.eqb_refl. unfold level_of.
    apply int_nonneg.
    assert (Hk : (Z.to_nat (sample_index (Z.of_nat c))
                  < length (brightness default_app ph))%nat)
      by (rewrite brightness_length; lia).
    pose proof (brightness_between default_app ph) as Hall.
    rewrite Forall_forall in Hall.
    specialize (Hall _ (nth_In _ 0 Hk)). lra.
  - intros r Hne. rewrite Hc by assumption.
    destruct (Nat.eqb_spec r (Z.to_nat (row_of default_app ph (Z.of_nat c))));
      [contradiction | reflexivity].
Qed.

(** ** The tone: sample counts and envelope *)

Lemma linspace_length a b n e : length (Np.linspace a b n e) = n.
Proof. unfold Np.linspace. rewrite length_map, length_seq. reflexivity. Qed.

(** With the end point included, every sample lies between the ends. *)
Lemma linspace_between lo hi a b n :
  lo <= a <= hi -> lo <= b <= hi ->
  Forall (fun v => lo <= v <= hi) (Np.linspace a b n true).
Proof.
  intros Ha Hb. unfold Np.linspace. apply Forall_forall. intros v Hv.
  apply in_map_iff in Hv. destruct Hv as (i & <- & Hi). apply in_seq in Hi.
  destruct (Nat.eq_dec i 0) as [-> | Hpos].
  - simpl. lra.
  - assert (Hn : 0 < INR (n - 1)) by (apply lt_0_INR; lia).
    assert (Hin : 0 <= INR i <= INR (n - 1)).
    { split; [apply pos_INR | apply le_INR; lia]. }
    set (t := INR i / INR (n - 1)).
    assert (Ht : 0 <= t <= 1).
    { unfold t. split.
      - apply Rmult_le_pos; [lra | left; apply Rinv_0_lt_compat; assumption].
      - apply (Rmult_le_reg_r (INR (n - 1))); [assumption |].
        unfold Rdiv. rewrite Rmult_assoc, Rinv_l by lra. lra. }
    replace (INR i * ((b - a) / INR (n - 1)) + a) with (a + t * (b - a))
      by (unfold t; field; lra).
    split; nra.
Qed.

Lemma samples_in_value (seconds : R) (k : Z) :
  IZR sample_rate * seconds = IZR k -> samples_in seconds = Z.to_nat k.
Proof. intros H. unfold samples_in. rewrite H, int_IZR. reflexivity. Qed.

Lemma samples_in_tone : samples_in sound_duration = 4410%nat.
Proof.
  apply (samples_in_value _ 4410). unfold sample_rate, sound_duration. lra.
Qed.

Lemma samples_in_attack : samples_in 0.02 = 882%nat.
Proof. apply (samples_in_value _ 882). unfold sample_rate. lra. Qed.

Lemma samples_in_decay : samples_in 0.05 = 2205%nat.
Proof. apply (samples_in_value _ 2205). unfold sample_rate. lra. Qed.

Lemma samples_in_sustain : samples_in (sound_duration - 0.07) = 1323%nat.
Proof.
  apply (samples_in_value _ 1323). unfold sample_rate, sound_duration. lra.
Qed.

Lemma attack_length : length attack = 882%nat.
Proof. unfold attack. rewrite linspace_length. apply samples_in_attack. Qed.

Lemma decay_length : length decay = 2205%nat.
Proof. unfold decay. rewrite linspace_length. apply samples_in_decay. Qed.

Lemma sustain_length : length sustain = 1323%nat.
Proof.
  unfold sustain, Np.ones. rewrite repeat_length. apply samples_in_sustain.
Qed.

Lemma release_length : length release = 882%nat.
Proof. unfold release. rewrite linspace_length. apply samples_in_attack. Qed.

Lemma carrier_length level : length (carrier level) = 4410%nat.
Proof.
  unfold carrier, tone_t. rewrite length_map, linspace_length.
  apply samples_in_tone.
Qed.

Lemma envelope_length : length envelope = (882 + (2205 + (1323 + 882)))%nat.
Proof.
  unfold envelope.
  rewrite !length_app, attack_length, decay_length, sustain_length, release_length.
  reflexivity.
Qed.

Lemma envelope_between : Forall (fun v => 0 <= v <= 1) envelope.
Proof.
  unfold envelope. repeat (apply Forall_app; split).
  - apply linspace_between; lra.
  - apply linspace_between; lra.
  - apply Forall_forall. intros v Hv. apply repeat_spec in Hv. subst v. lra.
  - apply linspace_between; lra.
Qed.

Lemma Forall_firstn {A : Type} (P : A -> Prop) n (l : list A) :
  Forall P l -> Forall P (firstn n l).
Proof.
  intros H. revert n. induction H as [| h t Hh Ht IH]; intros [| n]; simpl; auto.
Qed.

Lemma envelope_used_length level :
  length (envelope_used level) = length (carrier level).
Proof.
  unfold envelope_used. rewrite length_firstn, envelope_length, carrier_length.
  apply Nat.min_l. apply Nat.leb_le. vm_compute. reflexivity.
Qed.

(** C6: after the cut to the carrier's length the envelope has as many
    samples as the carrier; every envelope value that is used lies in
    [0, 1]; and with a tone of 0.1 s at 44100 Hz the carrier, and the
    sound that is played, have int(44100 * 0.1) = 4410 samples. *)
Theorem envelope_matches_carrier (level : R) :
  length (envelope_used level) = length (carrier level) /\
  Forall (fun v => 0 <= v <= 1) (envelope_used level) /\
  Np.int (IZR sample_rate * sound_duration) = 4410%Z /\
  length (carrier level) = 4410%nat /\
  exists sw, sound_wave level = Some sw /\
             play_sound level = Some [SdPlay sw sample_rate; SdWait] /\
             length sw = 4410%nat.
Proof.
  split; [apply envelope_used_length |].
  split; [apply Forall_firstn, envelope_between |].
  split.
  { replace (IZR sample_rate * sound_duration) with (IZR 4410)
      by (unfold sample_rate, sound_duration; lra).
    apply int_IZR. }
  split; [apply carrier_length |].
  unfold play_sound, sound_wave, imul.
  rewrite envelope_used_length, Nat.eqb_refl.
  eexists. split; [reflexivity |]. split; [reflexivity |].
  rewrite length_map, length_combine, envelope_used_length, Nat.min_id.
  apply carrier_length.
Qed.

(** C2, the code evaluated: the four segments have 882, 2205, 1323 and 882
    samples; the decay ends at 0.8 and the release starts at 0.8, but the
    sustain between them is [np.ones]: every sample of it is 1, and so is
    envelope sample 3087, the first of the sustain. *)
Theorem envelope_sustain_level :
  envelope = attack ++ decay ++ sustain ++ release /\
  length attack = 882%nat /\ length decay = 2205%nat /\
  length sustain = 1323%nat /\ length release = 882%nat /\
  nth 0 attack 0 = 0 /\ nth 881 attack 0 = 1 /\
  nth 0 decay 0 = 1 /\ nth 2204 decay 0 = 0.8 /\
  nth 0 release 0 = 0.8 /\ nth 881 release 0 = 0 /\
  Forall (fun v => v = 1) sustain /\
  nth 3087 envelope 0 = 1 /\
  nth 3087 envelope 0 <> 0.8.
Proof.
  assert (Hs : Forall (fun v => v = 1) sustain).
  { apply Forall_forall. intros v Hv. apply repeat_spec in Hv. exact Hv. }
  assert (H3087 : nth 3087 envelope 0 = 1).
  { unfold envelope.
    rewrite app_nth2 by (rewrite attack_length; apply Nat.leb_le; vm_compute; reflexivity).
    rewrite app_nth2
      by (rewrite attack_length, decay_length; apply Nat.leb_le; vm_compute; reflexivity).
    rewrite attack_length, decay_length.
    replace (3087 - 882 - 2205)%nat with 0%nat by (vm_compute; reflexivity).
    rewrite app_nth1 by (rewrite sustain_length; apply Nat.ltb_lt; vm_compute; reflexivity).
    rewrite Forall_forall in Hs. apply Hs, nth_In.
    rewrite sustain_length. apply Nat.ltb_lt. vm_compute. reflexivity. }
  assert (Hramp : forall a b i, nth i (Np.linspace a b 882 true) 0
                                = INR i * ((b - a) / 881) + a \/ (882 <= i)%nat).
  { intros a b i. destruct (Nat.lt_ge_cases i 882) as [Hi | Hi]; [left | right; exact Hi].
    unfold Np.linspace. rewrite nth_map_seq by exact Hi.
    replace (INR (882 - 1)) with 881; [reflexivity |].
    rewrite INR_IZR_INZ. reflexivity. }
  assert (H881 : INR 881 = 881) by (rewrite INR_IZR_INZ; reflexivity).
  assert (H2204 : INR 2204 = 2204) by (rewrite INR_IZR_INZ; reflexivity).
  split; [reflexivity |].
  split; [apply attack_length |]. split; [apply decay_length |].
  split; [apply sustain_length |]. split; [apply release_length |].
  unfold attack, decay, release.
  rewrite samples_in_attack, samples_in_decay.
  split.
  { destruct (Hramp 0 1 0%nat) as [-> | H]; [simpl; lra | exfalso; revert H; apply Nat.lt_nge, Nat.ltb_lt; vm_compute; reflexivity]. }
  split.
  { destruct (Hramp 0 1 881%nat) as [-> | H]; [rewrite H881; lra | exfalso; revert H; apply Nat.lt_nge, Nat.ltb_lt; vm_compute; reflexivity]. }
  split.
  { unfold Np.linspace. rewrite nth_map_seq by (apply Nat.ltb_lt; vm_compute; reflexivity).
    simpl INR. lra. }
  split.
  { unfold Np.linspace. rewrite nth_map_seq by (apply Nat.ltb_lt; vm_compute; reflexivity).
    replace (INR (2205 - 1)) with 2204 by (rewrite INR_IZR_INZ; reflexivity).
    rewrite H2204. lra. }
  split.
  { destruct (Hramp 0.8 0 0%nat) as [-> | H]; [simpl; lra | exfalso; revert H; apply Nat.lt_nge, Nat.ltb_lt; vm_compute; reflexivity]. }
  split.
  { destruct (Hramp 0.8 0 881%nat) as [-> | H]; [rewrite H881; lra | exfalso; revert H; apply Nat.lt_nge, Nat.ltb_lt; vm_compute; reflexivity]. }
  split; [exact Hs |]. split; [exact H3087 |].
  rewrite H3087. lra.
Qed.

(** ** One pass of the animation loop *)

Lemma max_upper a m v : Np.max a = Some m -> In v a -> (v <= m)%Z.
Proof.
  destruct a as [| h t]; [discriminate |]. cbn [Np.max].
  intros E. injection E as <-.
  assert (G : forall l acc, (acc <= fold_left Z.max l acc)%Z /\
                            forall w, In w l -> (w <= fold_left Z.max l acc)%Z).
  { induction l as [| x l IH]; intros acc; cbn [fold_left].
    - split; [lia | intros w []].
    - destruct (IH (Z.max acc x)) as [H1 H2]. split; [lia |].
      intros w [-> | Hw]; [lia | apply H2; exact Hw]. }
  destruct (G t h) as [G1 G2].
  intros [<- | Hin]; [exact G1 | apply G2; exact Hin].
Qed.

Lemma middle_row_total b :
  shape b 8 8 -> exists m, middle_row_brightness b = Some m /\
                           forall c, (c < 8)%nat -> (cell b 4 c <= m)%Z.
Proof.
  intros Hs. pose proof (shape_row b 8 8 4 Hs ltac:(lia)) as Hrow.
  destruct Hs as [Hlen _]. unfold middle_row_brightness.
  change (bitmap_size / 2)%Z with 4%Z.
  rewrite (getitem_in_range b 4 []) by (rewrite Hlen; lia).
  cbn [bind Z.to_nat Pos.to_nat Pos.iter_op Nat.add].
  change (Pos.to_nat 4) with 4%nat.
  destruct (nth 4 b []) as [| h t] eqn:E; [discriminate |].
  eexists. split; [reflexivity |].
  intros c Hc. apply (max_upper (h :: t)); [reflexivity |].
  unfold cell. rewrite E. apply nth_In. rewrite Hrow. exact Hc.
Qed.

Lemma compare_silent self m : fst (compare self m) = [].
Proof.
  unfold compare.
  destruct (Rlt_dec 0.1 (IZR (Z.abs (prev_brightness self - m)))); reflexivity.
Qed.

Lemma compare_phase self m : phase (snd (compare self m)) = phase self.
Proof.
  unfold compare.
  destruct (Rlt_dec 0.1 (IZR (Z.abs (prev_brightness self - m)))); reflexivity.
Qed.

Lemma compare_connected self m : connected (snd (compare self m)) = connected self.
Proof.
  unfold compare.
  destruct (Rlt_dec 0.1 (IZR (Z.abs (prev_brightness self - m)))); reflexivity.
Qed.

(** Integers differ by more than 0.1 exactly when they differ, so after
    the comparison the stored value is the new one in both branches. *)
Lemma compare_prev self m : prev_brightness (snd (compare self m)) = m.
Proof.
  unfold compare.
  destruct (Rlt_dec 0.1 (IZR (Z.abs (prev_brightness self - m)))) as [H | H];
    [reflexivity |].
  cbn [snd].
  destruct (Z.eq_dec (prev_brightness self) m) as [E | N]; [exact E |].
  exfalso. apply H.
  assert (H1 : (1 <= Z.abs (prev_brightness self - m))%Z) by lia.
  apply IZR_le in H1. lra.
Qed.

(** A pass never raises: it shows the frame, compares, advances the
    phase and sleeps. *)
Lemma iteration_total self :
  exists b m,
    generate_bitmap self (phase self) = Some b /\
    middle_row_brightness b = Some m /\
    iteration self =
    Some (display_bitmap b ++ [Sleep speed], advance (snd (compare self m))).
Proof.
  destruct (generate_bitmap_closed_form self (phase self)) as (b & E & Hs & _).
  destruct (middle_row_total b Hs) as (m & Em & _).
  exists b, m. split; [exact E |]. split; [exact Em |].
  unfold iteration. rewrite E. cbn [bind]. rewrite Em. cbn [bind].
  pose proof (compare_silent self m) as Hsil.
  destruct (compare self m) as [played self1]. cbn [fst snd] in *.
  subst played. reflexivity.
Qed.

Lemma display_bitmap_writes b :
  Forall (fun e => is_grid_write e = true) (display_bitmap b).
Proof.
  unfold display_bitmap. constructor; [reflexivity |].
  apply Forall_flat_map. apply Forall_forall. intros [row_idx row] _.
  apply Forall_forall. intros e He. apply in_map_iff in He.
  destruct He as ([col_idx col] & <- & _). reflexivity.
Qed.

Lemma display_bitmap_no_tone b : tones (display_bitmap b) = 0%nat.
Proof.
  unfold tones. pose proof (display_bitmap_writes b) as H.
  induction H as [| e l He Hl IH]; [reflexivity |].
  cbn [filter]. destruct e; try discriminate; exact IH.
Qed.


Lemma tones_app tr1 tr2 : tones (tr1 ++ tr2) = (tones tr1 + tones tr2)%nat.
Proof. unfold tones. rewrite filter_app, length_app. reflexivity. Qed.

Lemma phase_seq_iter n : phase_seq n = Nat.iter n next_phase 0.
Proof.
  induction n as [| n IH]; [reflexivity |].
  change (Nat.iter (S n) next_phase 0) with (next_phase (Nat.iter n next_phase 0)).
  rewrite <- IH. cbn [phase_seq]. unfold next_phase, phase_increment. lra.
Qed.

(** While nobody stops it, the loop makes as many passes as it is given,
    and each one moves the phase by [next_phase]. *)
Lemma while_connected_phase n : forall self,
  connected self = true ->
  exists tr s,
    while_connected n self = Some (tr, s) /\
    phase s = Nat.iter n next_phase (phase self) /\
    tones tr = 0%nat.
Proof.
  induction n as [| n IH]; intros self Hc.
  - exists [], self. repeat split.
  - destruct (iteration_total self) as (b & m & _ & _ & Ei).
    destruct (IH (advance (snd (compare self m)))) as (tr & s & Ew & Hp & Ht).
    { cbn [advance connected]. rewrite compare_connected. exact Hc. }
    exists ((display_bitmap b ++ [Sleep speed]) ++ tr), s.
    cbn [while_connected]. rewrite Hc, Ei. cbn [bind]. rewrite Ew. cbn [bind].
    split; [reflexivity |]. split.
    + rewrite Hp. cbn [advance phase]. rewrite compare_phase.
      rewrite Nat.iter_succ_r. reflexivity.
    + rewrite !tones_app, display_bitmap_no_tone, Ht. reflexivity.
Qed.

Lemma wave_scaled_nth self ph i :
  (i < 32)%nat ->
  nth i (wave_scaled self ph) 0 =
  Np.interp (nth i (wave self ph) 0) [-1; 1] [0; IZR (bitmap_size - 1)].
Proof.
  intros H. unfold wave_scaled.
  rewrite (nth_indep _ 0 ((fun w => Np.interp w [-1; 1] [0; IZR (bitmap_size - 1)]) 0))
    by (rewrite length_map, wave_length; assumption).
  rewrite (map_nth (fun w => Np.interp w [-1; 1] [0; IZR (bitmap_size - 1)])).
  reflexivity.
Qed.

(** At phase 0 the sine wave crosses zero in column 0: row 4 (3.5 rounds
    to the even 4), level 1. *)
Lemma first_frame_column_0 :
  row_of (entered default_app) 0 0 = 4%Z /\ level_of (entered default_app) 0 0 = 1%Z.
Proof.
  assert (S0 : sample_index 0 = 0%Z) by (apply (sample_index_cases 0); lia).
  assert (W0 : nth 0 (wave (entered default_app) 0) 0 = 0).
  { rewrite wave_nth by lia. cbn [wave_func entered default_app init INR].
    replace (2 * PI * (0 / 32) + 0) with 0 by lra. apply sin_0. }
  unfold row_of, level_of. rewrite S0. cbn [Z.to_nat].
  rewrite wave_scaled_nth, brightness_nth, W0 by lia.
  rewrite interp_rows, interp_levels, Rabs_R0. split.
  - destruct (Rlt_dec 0 (-1)); [lra |]. destruct (Rlt_dec 0 1); [| lra].
    replace (7 / 2 * (0 + 1)) with (IZR 3 + 1 / 2) by lra.
    rewrite round_tie. cbn [Z.even]. apply int_IZR.
  - destruct (Rlt_dec 0 0); [lra |]. destruct (Rlt_dec 0 1); [| lra].
    replace (14 * 0 + 1) with (IZR 1) by lra. apply int_IZR.
Qed.

(** C4, refuted as stated.  On the first pass after start the stored
    indicator is 0 and the middle row holds the level 1 of column 0, so
    the two differ by more than 0.1; the pass starts no tone. *)
Lemma first_pass_plays_no_tone :
  exists b m tr s,
    generate_bitmap (entered default_app) (phase (entered default_app)) = Some b /\
    middle_row_brightness b = Some m /\
    0.1 < IZR (Z.abs (prev_brightness (entered default_app) - m)) /\
    iteration (entered default_app) = Some (tr, s) /\
    start_animation 1 default_app = Some (tr, s) /\
    tones tr = 0%nat /\
    tones tr <> 1%nat.
Proof.
  destruct (iteration_total (entered default_app)) as (b & m & E & Em & Ei).
  destruct (rendered_cells _ _ _ E) as (Hs & Hc).
  destruct (middle_row_total b Hs) as (m' & Em' & Hm).
  rewrite Em in Em'. injection Em' as <-.
  assert (H1 : (1 <= m)%Z).
  { specialize (Hm 0%nat ltac:(lia)). rewrite Hc in Hm by lia.
    cbn [phase entered default_app init Z.of_nat] in Hm.
    destruct first_frame_column_0 as [-> ->] in Hm. exact Hm. }
  assert (Ht : tones (display_bitmap b ++ [Sleep speed]) = 0%nat)
    by (rewrite tones_app, display_bitmap_no_tone; reflexivity).
  eexists b, m, _, _. split; [exact E |]. split; [exact Em |]. split.
  { cbn [prev_brightness entered default_app init].
    assert (H2 : (1 <= Z.abs (0 - m))%Z) by lia. apply IZR_le in H2. lra. }
  split; [exact Ei |]. split.
  { unfold start_animation.
    cbn [while_connected connected entered]. rewrite Ei. cbn [bind].
    rewrite app_nil_r. reflexivity. }
  split; [exact Ht |]. rewrite Ht. discriminate.
Qed.

(** C4, amended: no pass of the loop triggers tone synthesis, whatever
    the two indicators are (the call is commented out); the stored
    previous indicator becomes the new middle-row maximum when the two
    differ by more than 0.1, and is left as it was otherwise. *)
Theorem indicator_threshold (self : App) :
  exists b m tr s,
    generate_bitmap self (phase self) = Some b /\
    middle_row_brightness b = Some m /\
    iteration self = Some (tr, s) /\
    tones tr = 0%nat /\
    (0.1 < IZR (Z.abs (prev_brightness self - m)) -> prev_brightness s = m) /\
    (IZR (Z.abs (prev_brightness self - m)) <= 0.1 ->
     prev_brightness s = prev_brightness self).
Proof.
  destruct (iteration_total self) as (b & m & E & Em & Ei).
  eexists b, m, _, _. split; [exact E |]. split; [exact Em |].
  split; [exact Ei |].
  split; [rewrite tones_app, display_bitmap_no_tone; reflexivity |].
  cbn [advance prev_brightness]. unfold compare.
  destruct (Rlt_dec 0.1 (IZR (Z.abs (prev_brightness self - m)))) as [H | H];
    cbn [snd prev_brightness]; split; intros H'; try reflexivity; lra.
Qed.

Lemma trans_phase c ev c' :
  trans c ev c' ->
  phase (snd c') = phase (snd c) \/
  (fst c = AtAdvance /\ phase (snd c') = next_phase (phase (snd c))).
Proof.
  intros H. destruct H as [[pc self] ev c' H | pc self]; [| left; reflexivity].
  destruct pc; cbn [step] in H; try discriminate.
  - injection H as <- <-. left. reflexivity.
  - injection H as <- <-. left. reflexivity.
  - destruct (generate_bitmap self (phase self)); injection H as <- <-;
      left; reflexivity.
  - injection H as <- <-. left. reflexivity.
  - destruct (middle_row_brightness bitmap) as [m |].
    + pose proof (compare_phase self m) as Hp.
      destruct (compare self m) as [played self1]. injection H as <- <-.
      left. exact Hp.
    + injection H as <- <-. left. reflexivity.
  - injection H as <- <-. right. split; reflexivity.
  - injection H as <- <-. left. reflexivity.
Qed.

(** C5: started on a new object (phase 0), the loop leaves after [n]
    passes the phase given by the recurrence
    phase[n+1] = phase[n] + 0.1 + 0.05 sin(phase[n]), phase[0] = 0; and
    nothing resets the phase: [stop_animation] keeps it, and every
    transition of the running loop either keeps it or is line 94, which
    adds [phase_increment + 0.05 * sin phase]. *)
Theorem phase_recurrence :
  phase default_app = 0 /\
  (forall n, exists tr s,
      start_animation n default_app = Some (tr, s) /\ phase s = phase_seq n) /\
  (forall self, phase (advance self)
                = phase self + (phase_increment + 0.05 * sin (phase self))) /\
  (forall self, phase (stop_animation self) = phase self) /\
  (forall self, phase (entered self) = phase self) /\
  (forall c ev c',
      trans c ev c' ->
      phase (snd c') = phase (snd c) \/
      (fst c = AtAdvance /\
       phase (snd c') = phase (snd c) + (phase_increment + 0.05 * sin (phase (snd c))))).
Proof.
  split; [reflexivity |]. split.
  - intros n.
    destruct (while_connected_phase n (entered default_app) eq_refl)
      as (tr & s & E & Hp & _).
    exists tr, s. split; [exact E |]. rewrite Hp, phase_seq_iter. reflexivity.
  - split; [reflexivity |]. split; [reflexivity |]. split; [reflexivity |].
    exact trans_phase.
Qed.

(** ** The growth of the phase under rounding *)









(** With exact rounding the model is the [advance] of the loop. *)
Lemma advance_rounded_exact self :
  rounding 0 0 (fun x => x) /\
  advance_rounded (fun x => x) sin (phase self) = phase (advance self).
Proof.
  split; [| reflexivity].
  repeat split; intros; try assumption; try reflexivity.
  rewrite Rminus_diag, Rabs_R0. lra.
Qed.

(** *** A rounding to check the hypotheses against *)

Lemma round_down x k : IZR k <= x < IZR k + 1 / 2 -> Np.round x = IZR k.
Proof.
  intros H.
  assert (E : Int_part x = k) by (symmetry; apply Int_part_spec; lra).
  unfold Np.round. rewrite E.
  destruct (Rlt_dec (x - IZR k) (1 / 2)); [reflexivity | lra].
Qed.

Lemma round_near x : exists z, Np.round x = IZR z /\ - (1 / 2) <= x - IZR z <= 1 / 2.
Proof.
  destruct (base_Int_part x) as [H1 H2]. unfold Np.round.
  destruct (Rlt_dec (x - IZR (Int_part x)) (1 / 2)).
  - exists (Int_part x). split; [reflexivity | lra].
  - destruct (Rlt_dec (1 / 2) (x - IZR (Int_part x))).
    + exists (Int_part x + 1)%Z. split; [reflexivity | rewrite plus_IZR; lra].
    + destruct (Z.even (Int_part x)).
      * exists (Int_part x). split; [reflexivity | lra].
      * exists (Int_part x + 1)%Z. split; [reflexivity | rewrite plus_IZR; lra].
Qed.

Lemma round_monotone x y : x <= y -> Np.round x <= Np.round y.
Proof.
  intros H. destruct (round_near x) as (zx & Ex & Hx).
  destruct (round_near y) as (zy & Ey & Hy).
  rewrite Ex, Ey. apply IZR_le.
  destruct (Z_le_gt_dec zx zy) as [Hle | Hgt]; [exact Hle | exfalso].
  assert (H1 : (zy + 1 <= zx)%Z) by lia. apply IZR_le in H1.
  rewrite plus_IZR in H1.
  assert (Exy : x = y) by lra. subst y.
  rewrite Ex in Ey. apply eq_IZR in Ey. lia.
Qed.







(** ** Stopping the loop *)

Lemma exec_step c ev c1 tr c2 :
  step c = Some (ev, c1) -> exec c1 tr c2 -> exec c (ev ++ tr) c2.
Proof. intros H1 H2. apply (exec_cons c ev c1 tr c2); [constructor |]; assumption. Qed.



Lemma trans_frame_shaped c ev c' : trans c ev c' -> frame_shaped c -> frame_shaped c'.
Proof.
  intros H. destruct H as [[pc self] ev c' H | pc self]; [| intros Hw; exact Hw].
  unfold frame_shaped. destruct pc; cbn [step fst] in *; try discriminate.
  - injection H as <- <-. trivial.
  - injection H as <- <-. destruct (connected self); trivial.
  - destruct (generate_bitmap_closed_form self (phase self)) as (b & E & Hs & _).
    rewrite E in H. injection H as <- <-. intros _. exact Hs.
  - injection H as <- <-. trivial.
  - intros Hs. destruct (middle_row_total bitmap Hs) as (m & Em & _).
    rewrite Em in H. destruct (compare self m) as [played self1].
    injection H as <- <-. exact I.
  - injection H as <- <-. trivial.
  - injection H as <- <-. trivial.
Qed.









(** The two readings of the loop agree: a pass taken as a function is a
    run of the coroutine from line 80 back to the test of line 78. *)
Lemma iteration_exec self tr s :
  iteration self = Some (tr, s) -> exec (AtGenerate, self) tr (AtWhile, s).
Proof.
  intros H. destruct (iteration_total self) as (b & m & E & Em & Ei).
  rewrite Ei in H. injection H as <- <-.
  assert (Hx : exec (AtGenerate, self)
                 ([] ++ display_bitmap b ++ fst (compare self m) ++ [] ++
                  [Sleep speed] ++ [])
                 (AtWhile, advance (snd (compare self m)))).
  { apply (exec_step _ [] (AtDisplay b, self)); [cbn [step]; rewrite E; reflexivity |].
    apply (exec_step _ _ (AtCompare b, self)); [reflexivity |].
    apply (exec_step _ _ (AtAdvance, snd (compare self m)));
      [cbn [step]; rewrite Em; destruct (compare self m); reflexivity |].
    apply (exec_step _ [] (AtSleep, advance (snd (compare self m)))); [reflexivity |].
    apply (exec_step _ _ (AtWhile, advance (snd (compare self m)))); [reflexivity |].
    apply exec_nil. }
  rewrite compare_silent, !app_nil_l, app_nil_r in Hx. exact Hx.
Qed.

(** ** display_bitmap, write by write *)

Lemma enumerate_from {A : Type} (l : list A) (d : A) k :
  combine (map Z.of_nat (seq k (length l))) l =
  map (fun i => (Z.of_nat (k + i), nth i l d)) (seq 0 (length l)).
Proof.
  revert k. induction l as [| h t IH]; intros k; [reflexivity |].
  cbn [length seq map combine nth]. rewrite Nat.add_0_r. f_equal.
  rewrite IH, <- seq_shift, map_map. apply map_ext.
  intros i. rewrite Nat.add_succ_r. reflexivity.
Qed.

Lemma enumerate_nth {A : Type} (l : list A) (d : A) :
  enumerate l = map (fun i => (Z.of_nat i, nth i l d)) (seq 0 (length l)).
Proof. unfold enumerate. apply (enumerate_from l d 0). Qed.

Lemma flat_map_ext_in {A B : Type} (f g : A -> list B) l :
  (forall a, In a l -> f a = g a) -> flat_map f l = flat_map g l.
Proof.
  induction l as [| h t IH]; intros H; [reflexivity |].
  cbn [flat_map]. rewrite (H h) by (left; reflexivity).
  rewrite IH; [reflexivity |]. intros a Ha. apply H. right. exact Ha.
Qed.

(** The writes of [display_bitmap] in the order they are made. *)
Lemma display_bitmap_rows b rows cols :
  shape b rows cols ->
  display_bitmap b =
  LedAll 0 ::
  flat_map (fun r => map (fun c => LedSet (Z.of_nat c) (Z.of_nat r) (cell b r c))
                         (seq 0 cols))
           (seq 0 rows).
Proof.
  intros Hs. unfold display_bitmap. f_equal.
  rewrite (enumerate_nth b []), flat_map_concat_map, map_map, <- flat_map_concat_map.
  destruct Hs as [Hlen Hall]. rewrite Hlen.
  apply flat_map_ext_in. intros r Hr. apply in_seq in Hr.
  rewrite (enumerate_nth (nth r b []) 0%Z), map_map.
  rewrite (shape_row b rows cols r (conj Hlen Hall)) by lia.
  reflexivity.
Qed.

Lemma nth_flat_map_blocks {A B : Type} (f : A -> list B) k (l : list A) d d' :
  (forall a, length (f a) = k) ->
  forall i j, (i < length l)%nat -> (j < k)%nat ->
              nth (i * k + j) (flat_map f l) d = nth j (f (nth i l d')) d.
Proof.
  intros Hk. induction l as [| h t IH]; intros i j Hi Hj; [cbn in Hi; lia |].
  cbn [flat_map]. destruct i as [| i].
  - cbn [Nat.mul Nat.add nth]. apply app_nth1. rewrite Hk. exact Hj.
  - rewrite app_nth2 by (rewrite Hk; cbn [Nat.mul]; lia).
    rewrite Hk. replace (S i * k + j - k)%nat with (i * k + j)%nat by (cbn [Nat.mul]; lia).
    cbn [nth]. apply IH; [cbn [length] in Hi; lia | exact Hj].
Qed.

Lemma length_flat_map_blocks {A B : Type} (f : A -> list B) k (l : list A) :
  (forall a, length (f a) = k) -> length (flat_map f l) = (length l * k)%nat.
Proof.
  intros Hk. induction l as [| h t IH]; [reflexivity |].
  cbn [flat_map length Nat.mul]. rewrite length_app, Hk, IH. reflexivity.
Qed.

(** X1: [display_bitmap] on a [rows] by [cols] array clears the grid first and
    then writes every cell once, row after row: [1 + rows * cols] calls in
    all, the call number [1 + r * cols + c] being
    [led_set(c, r, bitmap[r][c])], column first. *)
Theorem display_bitmap_layout (b : Bitmap) (rows cols r c : nat) :
  shape b rows cols -> (r < rows)%nat -> (c < cols)%nat ->
  length (display_bitmap b) = (1 + rows * cols)%nat /\
  nth 0 (display_bitmap b) SdWait = LedAll 0 /\
  nth (1 + (r * cols + c)) (display_bitmap b) SdWait =
  LedSet (Z.of_nat c) (Z.of_nat r) (cell b r c).
Proof.
  intros Hs Hr Hc. rewrite (display_bitmap_rows b rows cols Hs).
  set (f := fun r => map (fun c => LedSet (Z.of_nat c) (Z.of_nat r) (cell b r c))
                         (seq 0 cols)).
  assert (Hk : forall a, length (f a) = cols)
    by (intros a; unfold f; rewrite length_map, length_seq; reflexivity).
  split; [| split].
  - cbn [length]. rewrite (length_flat_map_blocks f cols) by exact Hk.
    rewrite length_seq. reflexivity.
  - reflexivity.
  - cbn [Nat.add nth].
    rewrite (nth_flat_map_blocks f cols _ SdWait 0%nat Hk)
      by (rewrite ?length_seq; assumption).
    rewrite seq_nth by exact Hr. unfold f. cbn [Nat.add].
    rewrite nth_map_seq by exact Hc. reflexivity.
Qed.

Lemma display_bitmap_layout_witness :
  shape [[1; 2; 3]; [4; 5; 6]]%Z 2 3 /\
  length (display_bitmap [[1; 2; 3]; [4; 5; 6]]%Z) = 7%nat /\
  nth 0 (display_bitmap [[1; 2; 3]; [4; 5; 6]]%Z) SdWait = LedAll 0 /\
  nth 6 (display_bitmap [[1; 2; 3]; [4; 5; 6]]%Z) SdWait = LedSet 2 1 6.
Proof.
  assert (Hs : shape [[1; 2; 3]; [4; 5; 6]]%Z 2 3)
    by (split; [reflexivity | repeat constructor]).
  split; [exact Hs |].
  apply (display_bitmap_layout [[1; 2; 3]; [4; 5; 6]]%Z 2 3 1 2 Hs); lia.
Defined.

(** ** A frame on the grid *)

Lemma count_nonzero_app l1 l2 :
  count_nonzero (l1 ++ l2) = (count_nonzero l1 + count_nonzero l2)%nat.
Proof. unfold count_nonzero. rewrite filter_app, length_app. reflexivity. Qed.

(** The cells [display_bitmap] lights are the nonzero entries of the array. *)
Lemma lit_row (row_idx : Z) (row : list Z) k :
  length (filter lit (map (fun '(col_idx, col) => LedSet col_idx row_idx col)
                          (combine (map Z.of_nat (seq k (length row))) row)))
  = count_nonzero row.
Proof.
  revert k. induction row as [| v t IH]; intros k; [reflexivity |].
  cbn [length seq map combine filter lit]. unfold count_nonzero. cbn [filter].
  destruct (nonzero v); cbn [length]; rewrite IH; reflexivity.
Qed.

Lemma lit_rows (b : Bitmap) k :
  length (filter lit
            (flat_map (fun '(row_idx, row) =>
                         map (fun '(col_idx, col) => LedSet col_idx row_idx col)
                             (enumerate row))
                      (combine (map Z.of_nat (seq k (length b))) b)))
  = count_nonzero (concat b).
Proof.
  revert k. induction b as [| row rest IH]; intros k; [reflexivity |].
  cbn [length seq map combine flat_map concat].
  rewrite filter_app, length_app, count_nonzero_app, IH.
  unfold enumerate. rewrite lit_row. reflexivity.
Qed.

Lemma lit_display_bitmap b :
  length (filter lit (display_bitmap b)) = count_nonzero (concat b).
Proof. unfold display_bitmap. cbn [filter lit]. apply (lit_rows b 0). Qed.

Lemma list_sum_map_add {A : Type} (f g : A -> nat) l :
  list_sum (map (fun a => (f a + g a)%nat) l) =
  (list_sum (map f l) + list_sum (map g l))%nat.
Proof.
  induction l as [| h t IH]; [reflexivity |]. simpl. rewrite IH. lia.
Qed.

Lemma count_nonzero_by_index l :
  count_nonzero l =
  list_sum (map (fun i => if nonzero (nth i l 0%Z) then 1%nat else 0%nat)
                (seq 0 (length l))).
Proof.
  induction l as [| v t IH]; [reflexivity |].
  cbn [length]. rewrite <- cons_seq, <- seq_shift. cbn [map nth].
  rewrite map_map. cbn [nth list_sum fold_right].
  change (fold_right Nat.add 0%nat) with list_sum. rewrite <- IH.
  unfold count_nonzero. cbn [filter].
  destruct (nonzero v); reflexivity.
Qed.

(** Counting the nonzero entries of an array row by row or column by
    column gives the same number. *)
Lemma count_nonzero_columns b rows cols :
  shape b rows cols ->
  count_nonzero (concat b) =
  list_sum (map (fun c => count_nonzero (column b c)) (seq 0 cols)).
Proof.
  revert rows. induction b as [| row rest IH]; intros rows [Hlen Hall].
  - cbn [concat column map]. clear. induction (seq 0 cols); [reflexivity | assumption].
  - cbn [concat]. rewrite count_nonzero_app.
    apply Forall_cons_iff in Hall. destruct Hall as [Hrow Hrest].
    rewrite (IH (length rest)) by (split; [reflexivity | assumption]).
    rewrite count_nonzero_by_index, Hrow, <- list_sum_map_add.
    f_equal. apply map_ext. intros c. unfold column, count_nonzero.
    cbn [map filter].
    destruct (nonzero (nth c row 0%Z)); reflexivity.
Qed.

Lemma list_sum_ones {A : Type} (f : A -> nat) l :
  (forall a, In a l -> f a = 1%nat) -> list_sum (map f l) = length l.
Proof.
  induction l as [| h t IH]; intros H; [reflexivity |].
  simpl. rewrite (H h) by (left; reflexivity).
  rewrite IH; [reflexivity |]. intros a Ha. apply H. right. exact Ha.
Qed.

Lemma length_filter_flat_map {A B : Type} (p : B -> bool) (f : A -> list B) l :
  length (filter p (flat_map f l)) = list_sum (map (fun a => length (filter p (f a))) l).
Proof.
  induction l as [| h t IH]; [reflexivity |].
  cbn [flat_map]. rewrite filter_app, length_app, IH. reflexivity.
Qed.

(** In the writes of one row, column [c] is lit at most once. *)
Lemma lit_in_column_row (g : nat -> Z) (r : Z) c a n :
  length (filter (lit_in_column (Z.of_nat c))
            (map (fun c' => LedSet (Z.of_nat c') r (g c')) (seq a n)))
  = if ((a <=? c) && (c <? a + n))%nat && nonzero (g c) then 1%nat else 0%nat.
Proof.
  revert a. induction n as [| n IH]; intros a.
  - replace (c <? a + 0)%nat with (negb (a <=? c)%nat)
      by (rewrite Nat.add_0_r, Nat.ltb_antisym; reflexivity).
    destruct (a <=? c)%nat; reflexivity.
  - cbn [seq map filter lit_in_column].
    destruct (Nat.eqb_spec a c) as [-> | Hne].
    + rewrite Z.eqb_refl. cbn [andb].
      replace ((c <=? c) && (c <? c + S n))%nat with true
        by (symmetry; apply andb_true_iff; split;
            [apply Nat.leb_le | apply Nat.ltb_lt]; lia).
      cbn [andb].
      destruct (nonzero (g c)); cbn [length]; rewrite (IH (S c));
        replace ((S c <=? c)%nat) with false
          by (symmetry; apply Nat.leb_gt; lia); reflexivity.
    + replace (Z.of_nat a =? Z.of_nat c)%Z with false
        by (symmetry; apply Z.eqb_neq; lia).
      cbn [andb]. rewrite (IH (S a)).
      replace ((S a <=? c) && (c <? S a + n))%nat
        with ((a <=? c) && (c <? a + S n))%nat; [reflexivity |].
      destruct (Nat.leb_spec a c), (Nat.leb_spec (S a) c),
               (Nat.ltb_spec c (a + S n)), (Nat.ltb_spec c (S a + n));
        try reflexivity; lia.
Qed.

(** The lit writes of column [c] are the nonzero entries of that column. *)
Lemma lit_in_column_count b rows cols c :
  shape b rows cols -> (c < cols)%nat ->
  length (filter (lit_in_column (Z.of_nat c)) (display_bitmap b))
  = count_nonzero (column b c).
Proof.
  intros Hs Hc. rewrite (display_bitmap_rows b rows cols Hs).
  cbn [filter lit_in_column]. rewrite length_filter_flat_map.
  rewrite (column_cells b rows cols c Hs), count_nonzero_by_index.
  rewrite length_map, length_seq. apply f_equal, map_ext_in.
  intros r Hr. apply in_seq in Hr.
  rewrite (lit_in_column_row (fun c' => cell b r c')).
  replace ((0 <=? c) && (c <? 0 + cols))%nat with true
    by (symmetry; apply andb_true_iff; split;
        [apply Nat.leb_le | apply Nat.ltb_lt]; lia).
  rewrite nth_map_seq by lia. reflexivity.
Qed.

Lemma filter_after_clear (p : Event -> bool) b writes :
  p (LedAll 0) = false -> display_bitmap b = LedAll 0 :: writes ->
  length (filter p writes) = length (filter p (display_bitmap b)).
Proof. intros Hp ->. cbn [filter]. rewrite Hp. reflexivity. Qed.

(** X2: for every wave function that, like [np.sin], returns a finite
    number for each sample, and every phase, the frame that
    [generate_bitmap] hands to [display_bitmap] goes out as 65 calls:
    [led_all(0)] first and once, then 64 calls [led_set(x, y, level)] with
    [x] and [y] in 0..7 and [level] in 0..15.  Exactly one of them lights a
    cell in each column [x], so 8 in all. *)
Theorem frame_on_grid (self : App) (ph : R) :
  exists b writes,
    generate_bitmap self ph = Some b /\
    display_bitmap b = LedAll 0 :: writes /\
    length writes = 64%nat /\
    Forall (fun e => exists x y level,
                       e = LedSet x y level /\
                       (0 <= x < 8)%Z /\ (0 <= y < 8)%Z /\ (0 <= level <= 15)%Z)
           writes /\
    Forall (fun c => length (filter (lit_in_column (Z.of_nat c)) writes) = 1%nat)
           (seq 0 8) /\
    length (filter lit writes) = 8%nat.
Proof.
  destruct (generate_bitmap_closed_form self ph) as (b & E & Hs & _).
  destruct (rendered_cells self ph b E) as (_ & Hc).
  pose proof (display_bitmap_rows b 8 8 Hs) as Hd.
  eexists b, _. split; [exact E |]. split; [exact Hd |]. split; [| split; [| split]].
  - rewrite (length_flat_map_blocks _ 8)
      by (intros a; rewrite length_map, length_seq; reflexivity).
    reflexivity.
  - apply Forall_flat_map, Forall_forall. intros r Hr. apply in_seq in Hr.
    apply Forall_forall. intros e He. apply in_map_iff in He.
    destruct He as (c & <- & Hin). apply in_seq in Hin.
    exists (Z.of_nat c), (Z.of_nat r), (cell b r c).
    split; [reflexivity |]. split; [lia |]. split; [lia |].
    rewrite Hc by lia. pose proof (level_of_range self ph c ltac:(lia)).
    destruct (r =? _)%nat; lia.
  - apply Forall_forall. intros c Hin. apply in_seq in Hin.
    rewrite (filter_after_clear _ b _ eq_refl Hd).
    rewrite (lit_in_column_count b 8 8 c Hs) by lia.
    apply (rendered_column_count self ph); [exact E | lia].
  - rewrite (filter_after_clear _ b _ eq_refl Hd), lit_display_bitmap.
    rewrite (count_nonzero_columns b 8 8 Hs).
    rewrite list_sum_ones; [reflexivity |].
    intros c Hin. apply in_seq in Hin.
    apply (rendered_column_count self ph); [exact E | lia].
Qed.

(** ** Wave functions other than the sine *)

Lemma middle_row_between self ph b m :
  generate_bitmap self ph = Some b -> middle_row_brightness b = Some m ->
  (0 <= m <= 15)%Z.
Proof.
  intros E Em. destruct (rendered_cells self ph b E) as (Hs & _).
  pose proof (rendered_values self ph b E) as Hv.
  unfold middle_row_brightness in Em. change (bitmap_size / 2)%Z with 4%Z in Em.
  rewrite (getitem_in_range b 4 []) in Em by (destruct Hs as [-> _]; lia).
  cbn [bind] in Em. change (Z.to_nat 4) with 4%nat in Em.
  assert (Hrow : Forall (fun v => (0 <= v <= 15)%Z) (nth 4 b [])).
  { rewrite Forall_forall in Hv. apply Hv, nth_In. destruct Hs as [-> _]. lia. }
  destruct (nth 4 b []) as [| h t]; [discriminate |].
  cbn [Np.max] in Em. injection Em as <-.
  clear - Hrow. apply Forall_cons_iff in Hrow. destruct Hrow as [Hh Ht].
  revert h Hh. induction Ht as [| x l Hx Hl IH]; intros h Hh; cbn [fold_left].
  - exact Hh.
  - apply IH. lia.
Qed.

(** X3: for every wave function that, like [np.sin], returns a finite
    number for each sample, [generate_bitmap] raises no error, also where
    those numbers leave [-1, 1]: [np.interp] cuts them to the rows 0..7.
    The result is an 8 by 8 array with entries in [0, 15] that has, in
    every column, exactly one nonzero entry, and the middle row has a
    largest value, in 0..15. *)
Theorem generate_bitmap_finite_wave (self : App) (ph : R) :
  exists b,
    generate_bitmap self ph = Some b /\
    shape b 8 8 /\
    Forall (Forall (fun v => (0 <= v <= 15)%Z)) b /\
    Forall (fun c => count_nonzero (column b c) = 1%nat) (seq 0 8) /\
    exists m, middle_row_brightness b = Some m /\ (0 <= m <= 15)%Z.
Proof.
  destruct (generate_bitmap_closed_form self ph) as (b & E & Hs & _).
  pose proof (rendered_values self ph b E) as Hv.
  exists b. split; [exact E |]. split; [exact Hs |]. split; [| split].
  - apply Forall_forall. intros row Hin. rewrite Forall_forall in Hv.
    apply (Hv row Hin).
  - apply Forall_forall. intros c Hc. apply in_seq in Hc.
    apply (rendered_column_count self ph); [exact E | lia].
  - destruct (middle_row_total b Hs) as (m & Em & _).
    exists m. split; [exact Em |].
    apply (middle_row_between self ph b); assumption.
Qed.

(** What a column shows, in terms of the wave sample it reads. *)
Lemma column_of_sample self ph c :
  (c < 8)%nat ->
  exists w,
    Np.getitem (wave self ph) (sample_index (Z.of_nat c)) = Some w /\
    row_of self ph (Z.of_nat c)
    = Np.int (Np.round (Np.interp w [-1; 1] [0; IZR (bitmap_size - 1)])) /\
    level_of self ph (Z.of_nat c)
    = Np.int (Np.interp (Rabs w) [0; 1] [1; IZR brightness_factor]).
Proof.
  intros H. pose proof (sample_index_range c H) as Hr.
  exists (nth (Z.to_nat (sample_index (Z.of_nat c))) (wave self ph) 0).
  split; [apply getitem_in_range; rewrite wave_length; lia |].
  unfold row_of, level_of.
  rewrite wave_scaled_nth, brightness_nth by lia. split; reflexivity.
Qed.

Lemma round_half_row : Np.round (7 / 2) = IZR 4.
Proof.
  replace (7 / 2) with (IZR 3 + 1 / 2) by lra. rewrite round_tie. reflexivity.
Qed.

Lemma round_IZR z : Np.round (IZR z) = IZR z.
Proof. apply round_down. lra. Qed.

(** X4: what a column shows of the sample [w] it reads from the wave
    array, for a wave function that returns finite numbers.  A sample of 1
    or more lights row 7 at level 15, a sample of -1 or less row 0 at
    level 15, and a sample of 0 row 4 at level 1; a sample that is not
    negative lights one of the rows 4..7, and one that is not positive one
    of the rows 0..4. *)
Theorem wave_saturates (self : App) (ph : R) (c : nat) :
  (c < 8)%nat ->
  exists b w r,
    generate_bitmap self ph = Some b /\
    Np.getitem (wave self ph) (sample_index (Z.of_nat c)) = Some w /\
    (r < 8)%nat /\ (1 <= cell b r c <= 15)%Z /\
    (1 <= w -> r = 7%nat /\ cell b 7 c = 15%Z) /\
    (w <= -1 -> r = 0%nat /\ cell b 0 c = 15%Z) /\
    (w = 0 -> r = 4%nat /\ cell b 4 c = 1%Z) /\
    (0 <= w -> (4 <= r)%nat) /\
    (w <= 0 -> (r <= 4)%nat).
Proof.
  intros H. destruct (generate_bitmap_closed_form self ph) as (b & E & _).
  destruct (rendered_cells self ph b E) as (_ & Hc).
  destruct (column_of_sample self ph c H) as (w & Ew & Hrow & Hlev).
  pose proof (row_of_range self ph c H) as Hr.
  pose proof (level_of_range self ph c H) as Hl.
  assert (Hlit : cell b (Z.to_nat (row_of self ph (Z.of_nat c))) c
                 = level_of self ph (Z.of_nat c))
    by (rewrite Hc, Nat.eqb_refl by assumption; reflexivity).
  exists b, w, (Z.to_nat (row_of self ph (Z.of_nat c))).
  split; [exact E |]. split; [exact Ew |]. split; [lia |].
  split; [rewrite Hlit; exact Hl |].
  rewrite interp_rows in Hrow. rewrite interp_levels in Hlev.
  split; [| split; [| split; [| split]]]; intros Hw.
  - assert (R7 : row_of self ph (Z.of_nat c) = 7%Z).
    { rewrite Hrow. destruct (Rlt_dec w (-1)); [lra |].
      destruct (Rlt_dec w 1); [lra |]. rewrite (round_IZR 7). apply int_IZR. }
    rewrite R7 in Hlit |- *. split; [reflexivity |].
    change (Z.to_nat 7) with 7%nat in Hlit. rewrite Hlit, Hlev.
    rewrite Rabs_pos_eq by lra.
    destruct (Rlt_dec w 0); [lra |]. destruct (Rlt_dec w 1); [lra |].
    apply int_IZR.
  - assert (R0 : row_of self ph (Z.of_nat c) = 0%Z).
    { rewrite Hrow. destruct (Rlt_dec w (-1)); [rewrite (round_IZR 0); apply int_IZR |].
      destruct (Rlt_dec w 1); [| lra].
      replace (7 / 2 * (w + 1)) with (IZR 0) by lra.
      rewrite round_IZR. apply int_IZR. }
    rewrite R0 in Hlit |- *. split; [reflexivity |].
    change (Z.to_nat 0) with 0%nat in Hlit. rewrite Hlit, Hlev.
    rewrite Rabs_left1 by lra.
    destruct (Rlt_dec (- w) 0); [lra |]. destruct (Rlt_dec (- w) 1); [lra |].
    apply int_IZR.
  - assert (R4 : row_of self ph (Z.of_nat c) = 4%Z).
    { rewrite Hrow, Hw. destruct (Rlt_dec 0 (-1)); [lra |].
      destruct (Rlt_dec 0 1); [| lra].
      replace (7 / 2 * (0 + 1)) with (IZR 3 + 1 / 2) by lra.
      rewrite round_tie. cbn [Z.even]. apply int_IZR. }
    rewrite R4 in Hlit |- *. split; [reflexivity |].
    change (Z.to_nat 4) with 4%nat in Hlit. rewrite Hlit, Hlev, Hw, Rabs_R0.
    destruct (Rlt_dec 0 0); [lra |]. destruct (Rlt_dec 0 1); [| lra].
    replace (14 * 0 + 1) with (IZR 1) by lra. apply int_IZR.
  - assert (Hx : 7 / 2 <= (if Rlt_dec w (-1) then 0
                           else if Rlt_dec w 1 then 7 / 2 * (w + 1) else 7))
      by (destruct (Rlt_dec w (-1)); [lra |]; destruct (Rlt_dec w 1); lra).
    apply round_monotone in Hx.
    rewrite round_half_row in Hx.
    assert (Hb : IZR 0 <= (if Rlt_dec w (-1) then 0
                           else if Rlt_dec w 1 then 7 / 2 * (w + 1) else 7) <= IZR 7)
      by (destruct (Rlt_dec w (-1)); [lra |]; destruct (Rlt_dec w 1); lra).
    destruct (round_between _ 0 7 Hb) as (z & Ez & Hz).
    rewrite Ez in Hx, Hrow. apply le_IZR in Hx.
    rewrite Hrow, int_IZR. lia.
  - assert (Hx : (if Rlt_dec w (-1) then 0
                  else if Rlt_dec w 1 then 7 / 2 * (w + 1) else 7) <= 7 / 2)
      by (destruct (Rlt_dec w (-1)); [lra |]; destruct (Rlt_dec w 1); lra).
    apply round_monotone in Hx.
    rewrite round_half_row in Hx.
    assert (Hb : IZR 0 <= (if Rlt_dec w (-1) then 0
                           else if Rlt_dec w 1 then 7 / 2 * (w + 1) else 7) <= IZR 7)
      by (destruct (Rlt_dec w (-1)); [lra |]; destruct (Rlt_dec w 1); lra).
    destruct (round_between _ 0 7 Hb) as (z & Ez & Hz).
    rewrite Ez in Hx, Hrow. apply le_IZR in Hx.
    rewrite Hrow, int_IZR. lia.
Qed.

Lemma wave_saturates_witness :
  exists b,
    generate_bitmap (init (fun _ => 2)) 0 = Some b /\
    cell b 7 3 = 15%Z.
Proof.
  destruct (wave_saturates (init (fun _ => 2)) 0 3 ltac:(lia))
    as (b & w & r & E & Ew & _ & _ & Hhigh & _).
  exists b. split; [exact E |]. apply Hhigh.
  pose proof (sample_index_range 3 ltac:(lia)) as Hr.
  rewrite (getitem_in_range (wave (init (fun _ => 2)) 0) _ 0) in Ew
    by (rewrite wave_length; exact Hr).
  assert (Hw : w = nth (Z.to_nat (sample_index (Z.of_nat 3)))
                       (wave (init (fun _ => 2)) 0) 0) by congruence.
  rewrite Hw, wave_nth.
  - cbn [wave_func init]. lra.
  - lia.
Defined.

(** ** The sound that is played *)

Lemma envelope_body_length : length (attack ++ decay ++ sustain) = 4410%nat.
Proof.
  rewrite !length_app, attack_length, decay_length, sustain_length.
  vm_compute. reflexivity.
Qed.

Lemma envelope_used_body level : envelope_used level = attack ++ decay ++ sustain.
Proof.
  unfold envelope_used, envelope.
  rewrite carrier_length, <- envelope_body_length.
  replace (attack ++ decay ++ sustain ++ release)
    with ((attack ++ decay ++ sustain) ++ release)
    by (rewrite <- !app_assoc; reflexivity).
  rewrite firstn_app, Nat.sub_diag, firstn_all. cbn [firstn]. apply app_nil_r.
Qed.

(** X7: the cut to the carrier's length removes the release ramp whole:
    attack, decay and sustain already fill the 4410 samples of the tone, so
    the envelope that is applied is those three segments and ends on the
    sustain level 1 instead of fading to 0. *)
Theorem release_cut_off (level : R) :
  length (attack ++ decay ++ sustain) = length (carrier level) /\
  envelope_used level = attack ++ decay ++ sustain /\
  envelope = envelope_used level ++ release /\
  nth 4409 (envelope_used level) 0 = 1 /\
  Forall (fun v => 4 / 5 <= v) (skipn 882 (envelope_used level)).
Proof.
  split; [rewrite envelope_body_length, carrier_length; reflexivity |].
  split; [apply envelope_used_body |].
  split; [rewrite envelope_used_body; unfold envelope; rewrite <- !app_assoc; reflexivity |].
  rewrite envelope_used_body. split.
  - rewrite app_nth2 by (rewrite attack_length; apply Nat.leb_le; vm_compute; reflexivity).
    rewrite app_nth2
      by (rewrite attack_length, decay_length; apply Nat.leb_le; vm_compute; reflexivity).
    assert (Hin : In (nth (4409 - length attack - length decay) sustain 0) sustain).
    { apply nth_In. rewrite attack_length, decay_length, sustain_length.
      apply Nat.ltb_lt. vm_compute. reflexivity. }
    apply repeat_spec in Hin. exact Hin.
  - rewrite <- attack_length, skipn_app, Nat.sub_diag, skipn_all. cbn [app skipn].
    apply Forall_app. split.
    + unfold decay. apply Forall_forall. intros v Hv.
      pose proof (linspace_between (4 / 5) 1 1 0.8 (samples_in 0.05)
                    ltac:(lra) ltac:(lra)) as Hall.
      rewrite Forall_forall in Hall. apply Hall in Hv. lra.
    + apply Forall_forall. intros v Hv. apply repeat_spec in Hv. subst v. lra.
Qed.

Lemma carrier_between level : Forall (fun u => - (1 / 2) <= u <= 1 / 2) (carrier level).
Proof.
  unfold carrier. apply Forall_forall. intros u Hu.
  apply in_map_iff in Hu. destruct Hu as (t & <- & _).
  pose proof (SIN_bound (2 * PI * pitch level * t)). lra.
Qed.

(** X8: [play_sound] never raises, whatever the brightness: it hands the
    sound device 4410 samples at 44100 Hz and waits; every sample lies in
    [-0.5, 0.5], and the first one is 0. *)
Theorem sound_wave_between (level : R) :
  exists sw,
    play_sound level = Some [SdPlay sw sample_rate; SdWait] /\
    length sw = 4410%nat /\
    Forall (fun v => - (1 / 2) <= v <= 1 / 2) sw /\
    nth 0 sw 0 = 0.
Proof.
  unfold play_sound, sound_wave, imul.
  rewrite envelope_used_length, Nat.eqb_refl. cbn [bind].
  eexists. split; [reflexivity |].
  split; [rewrite length_map, length_combine, envelope_used_length, Nat.min_id;
          apply carrier_length |].
  split.
  - apply Forall_forall. intros v Hv. apply in_map_iff in Hv.
    destruct Hv as ([u e] & <- & Hin).
    pose proof (carrier_between level) as Hc. rewrite Forall_forall in Hc.
    specialize (Hc u (in_combine_l _ _ _ _ Hin)).
    pose proof (Forall_firstn _ (length (carrier level)) _ envelope_between) as He.
    rewrite Forall_forall in He.
    specialize (He e (in_combine_r _ _ _ _ Hin)). cbn beta in He.
    split; nra.
  - rewrite envelope_used_body. unfold carrier, tone_t, attack.
    rewrite samples_in_tone, samples_in_attack.
    change 4410%nat with (S 4409). change 882%nat with (S 881).
    unfold Np.linspace at 1 2. cbn [seq map app combine nth].
    cbn [INR]. lra.
Qed.

(** ** The loop over many passes *)

(** X9: after every pass the stored previous brightness is the middle-row
    maximum of the frame just shown, a value in 0..15: both are integers,
    so the test against 0.1 succeeds exactly when they differ, and when it
    fails they are equal already. *)
Theorem stored_brightness_current (self : App) :
  exists b m tr s,
    generate_bitmap self (phase self) = Some b /\
    middle_row_brightness b = Some m /\
    iteration self = Some (tr, s) /\
    prev_brightness s = m /\
    (0 <= m <= 15)%Z /\
    (0.1 < IZR (Z.abs (prev_brightness self - m)) <-> prev_brightness self <> m).
Proof.
  destruct (iteration_total self) as (b & m & E & Em & Ei).
  eexists b, m, _, _. split; [exact E |]. split; [exact Em |].
  split; [exact Ei |].
  split; [cbn [advance prev_brightness]; apply compare_prev |].
  split; [apply (middle_row_between self (phase self) b); assumption |].
  split.
  - intros H Heq. rewrite Heq, Z.sub_diag in H. cbn [Z.abs] in H. lra.
  - intros Hne.
    assert (H1 : (1 <= Z.abs (prev_brightness self - m))%Z) by lia.
    apply IZR_le in H1. lra.
Qed.

Lemma max_in a m : Np.max a = Some m -> In m a.
Proof.
  destruct a as [| h t]; [discriminate |]. cbn [Np.max].
  intros E. injection E as <-.
  revert h. induction t as [| x l IH]; intros h; cbn [fold_left].
  - left. reflexivity.
  - destruct (Z.max_spec h x) as [[_ Hm] | [_ Hm]]; rewrite Hm.
    + right. apply IH.
    + destruct (IH h) as [E | Hin]; [left; exact E | right; right; exact Hin].
Qed.

(** X13: the brightness the loop reads from a frame is the level of a
    column whose wave sample lands in row 4, the largest of them; when no
    column of the frame is in row 4 it is 0. *)
Theorem indicator_from_middle_row (self : App) (ph : R) :
  exists b m,
    generate_bitmap self ph = Some b /\
    middle_row_brightness b = Some m /\
    Forall (fun c => row_of self ph (Z.of_nat c) = 4%Z ->
                     (level_of self ph (Z.of_nat c) <= m)%Z) (seq 0 8) /\
    (m = 0%Z /\
     Forall (fun c => row_of self ph (Z.of_nat c) <> 4%Z) (seq 0 8)
     \/
     exists c, (c < 8)%nat /\ row_of self ph (Z.of_nat c) = 4%Z /\
               m = level_of self ph (Z.of_nat c) /\ cell b 4 c = m).
Proof.
  destruct (generate_bitmap_closed_form self ph) as (b & E & Hs & _).
  destruct (rendered_cells self ph b E) as (_ & Hc).
  destruct (middle_row_total b Hs) as (m & Em & Hm).
  exists b, m. split; [exact E |]. split; [exact Em |]. split.
  - apply Forall_forall. intros c Hin Hrow. apply in_seq in Hin.
    specialize (Hm c ltac:(lia)). rewrite Hc, Hrow in Hm by lia. exact Hm.
  - assert (Hin : In m (nth 4 b [])).
    { apply max_in. unfold middle_row_brightness in Em.
      change (bitmap_size / 2)%Z with 4%Z in Em.
      rewrite (getitem_in_range b 4 []) in Em by (destruct Hs as [-> _]; lia).
      exact Em. }
    destruct (In_nth _ _ 0%Z Hin) as (c & Hlt & Hnth).
    rewrite (shape_row b 8 8 4 Hs) in Hlt by lia.
    fold (cell b 4 c) in Hnth. pose proof Hnth as Hcell.
    rewrite Hc in Hnth by assumption.
    pose proof (row_of_range self ph c Hlt) as Hr.
    destruct (Nat.eqb_spec 4 (Z.to_nat (row_of self ph (Z.of_nat c)))) as [E4 | N4].
    + right. exists c. split; [exact Hlt |]. split; [lia |].
      split; [symmetry; exact Hnth | exact Hcell].
    + left. split; [symmetry; exact Hnth |].
      apply Forall_forall. intros c' Hin' Hrow'. apply in_seq in Hin'.
      specialize (Hm c' ltac:(lia)). rewrite Hc, Hrow' in Hm by lia.
      change (Z.to_nat 4) with 4%nat in Hm. cbn [Nat.eqb] in Hm.
      pose proof (level_of_range self ph c' ltac:(lia)). lia.
Qed.

Lemma frames_app tr1 tr2 : frames (tr1 ++ tr2) = (frames tr1 + frames tr2)%nat.
Proof. unfold frames. rewrite filter_app, length_app. reflexivity. Qed.

Lemma frames_display b rows cols :
  shape b rows cols -> frames (display_bitmap b) = 1%nat.
Proof.
  intros Hs. rewrite (display_bitmap_rows b rows cols Hs).
  unfold frames. cbn [filter is_clear length]. f_equal.
  match goal with |- length (filter _ ?l) = _ =>
    assert (H : Forall (fun e => is_clear e = false) l) end.
  { apply Forall_flat_map, Forall_forall. intros r _.
    apply Forall_forall. intros e He. apply in_map_iff in He.
    destruct He as (c & <- & _). reflexivity. }
  induction H as [| e l He Hl IH]; [reflexivity |].
  cbn [filter]. rewrite He. exact IH.
Qed.

(** [n] passes from an object whose flag is up, followed by [m] more. *)
Lemma while_connected_split n m : forall self,
  connected self = true ->
  exists tr1 s1 tr2 s2,
    while_connected n self = Some (tr1, s1) /\
    connected s1 = true /\
    while_connected m s1 = Some (tr2, s2) /\
    while_connected (n + m) self = Some (tr1 ++ tr2, s2) /\
    length tr1 = (66 * n)%nat /\ frames tr1 = n.
Proof.
  induction n as [| n IH]; intros self Hc.
  - destruct (while_connected_phase m self Hc) as (tr2 & s2 & E2 & _).
    exists [], self, tr2, s2. repeat split; assumption.
  - destruct (iteration_total self) as (b & k & E & _ & Ei).
    destruct (rendered_cells _ _ _ E) as (Hs & _).
    destruct (IH (advance (snd (compare self k)))) as (tr1 & s1 & tr2 & s2 & E1 & Hc1 & E2 & E12 & Hlen & Hfr).
    { cbn [advance connected]. rewrite compare_connected. exact Hc. }
    exists ((display_bitmap b ++ [Sleep speed]) ++ tr1), s1, tr2, s2.
    split; [cbn [while_connected]; rewrite Hc, Ei; cbn [bind]; rewrite E1; reflexivity |].
    split; [exact Hc1 |]. split; [exact E2 |]. split; [| split].
    + cbn [Nat.add while_connected]. rewrite Hc, Ei. cbn [bind]. rewrite E12.
      cbn [bind]. rewrite (app_assoc _ tr1 tr2). reflexivity.
    + rewrite !length_app, Hlen, (display_bitmap_rows b 8 8 Hs). cbn [length].
      rewrite (length_flat_map_blocks _ 8)
        by (intros a; rewrite length_map, length_seq; reflexivity).
      rewrite length_seq. lia.
    + rewrite !frames_app, Hfr, (frames_display b 8 8 Hs). reflexivity.
Qed.

(** X11: stopping and starting again resumes the animation where it was:
    [n] passes, a call of [stop_animation] and a new start for [m] passes
    send the same frames and leave the same object as [n + m] passes in one
    go; neither the phase nor the stored brightness is reset.  [n] passes
    send [n] frames in [66 n] calls. *)
Theorem restart_resumes (n m : nat) (self : App) :
  exists tr1 s1 tr2 s2,
    start_animation n self = Some (tr1, s1) /\
    start_animation m (stop_animation s1) = Some (tr2, s2) /\
    start_animation (n + m) self = Some (tr1 ++ tr2, s2) /\
    length tr1 = (66 * n)%nat /\ frames tr1 = n.
Proof.
  destruct (while_connected_split n m (entered self) eq_refl)
    as (tr1 & s1 & tr2 & s2 & E1 & Hc1 & E2 & E12 & Hlen & Hfr).
  exists tr1, s1, tr2, s2. split; [exact E1 |]. split; [| split; [exact E12 |]].
  - unfold start_animation.
    replace (entered (stop_animation s1)) with s1; [exact E2 |].
    destruct s1 as [p w c v]. cbn [connected] in Hc1. subst c. reflexivity.
  - split; assumption.
Qed.

Lemma run_exec c tr c' : run c tr c' -> exec c tr c'.
Proof.
  intros H. induction H as [c | c ev c1 tr c2 Hs Hr IH]; [apply exec_nil |].
  apply (exec_step c ev c1); assumption.
Qed.

Lemma step_keeps_running c ev c' :
  step c = Some (ev, c') ->
  frame_shaped c -> (fst c = AtEntry \/ connected (snd c) = true) ->
  fst c <> Returned ->
  frame_shaped c' /\ connected (snd c') = true /\ fst c' <> AtEntry /\
  fst c' <> Returned /\ wave_func (snd c') = wave_func (snd c) /\ tones ev = 0%nat.
Proof.
  intros H Hw Hc Hret.
  pose proof (trans_frame_shaped c ev c' (trans_step c ev c' H) Hw) as Hw'.
  destruct c as [pc self]. cbn [fst snd] in *.
  assert (Hup : pc <> AtEntry -> connected self = true)
    by (intros Hne; destruct Hc as [Hc | Hc]; [contradiction | exact Hc]).
  split; [exact Hw' |]. clear Hw'.
  destruct pc; cbn [step] in H; try discriminate.
  - injection H as <- <-. repeat split; discriminate.
  - rewrite Hup in H by discriminate. injection H as <- <-.
    repeat split; try discriminate. apply Hup. discriminate.
  - destruct (generate_bitmap self (phase self)); injection H as <- <-;
      repeat split; try discriminate; apply Hup; discriminate.
  - injection H as <- <-.
    repeat split; try discriminate;
      [apply Hup; discriminate | apply display_bitmap_no_tone].
  - destruct (middle_row_brightness bitmap) as [m |].
    + pose proof (compare_silent self m) as Hs.
      pose proof (compare_connected self m) as Hk.
      assert (Hwf : wave_func (snd (compare self m)) = wave_func self).
      { unfold compare.
        destruct (Rlt_dec 0.1 (IZR (Z.abs (prev_brightness self - m)))); reflexivity. }
      destruct (compare self m) as [played self1]. cbn [fst snd] in Hs, Hk, Hwf.
      injection H as <- <-. subst played. cbn [fst snd].
      repeat split; try discriminate; [| exact Hwf].
      rewrite Hk. apply Hup. discriminate.
    + injection H as <- <-.
      repeat split; try discriminate. apply Hup. discriminate.
  - injection H as <- <-.
    repeat split; try discriminate. cbn [snd advance connected]. apply Hup. discriminate.
  - injection H as <- <-.
    repeat split; try discriminate. apply Hup. discriminate.
Qed.

Lemma run_keeps_running c tr c' :
  run c tr c' ->
  frame_shaped c -> (fst c = AtEntry \/ connected (snd c) = true) ->
  fst c <> Returned ->
  frame_shaped c' /\ (fst c' = AtEntry \/ connected (snd c') = true) /\
  fst c' <> Returned /\ wave_func (snd c') = wave_func (snd c) /\ tones tr = 0%nat.
Proof.
  intros H. induction H as [c | c ev c1 tr c2 Hs Hr IH]; intros Hw Hc Hret.
  - repeat split; assumption.
  - destruct (step_keeps_running c ev c1 Hs Hw Hc Hret)
      as (Hw1 & Hc1 & _ & Hret1 & Hwf1 & Ht1).
    destruct (IH Hw1 (or_intror Hc1) Hret1) as (Hw2 & Hc2 & Hret2 & Hwf2 & Ht2).
    repeat split; try assumption.
    + congruence.
    + rewrite tones_app, Ht1, Ht2. reflexivity.
Qed.

(** X10: left alone, the loop never ends.  From the start of
    [start_animation], as long as nobody calls [stop_animation], the
    coroutine never returns and never raises, it always has a next
    statement to execute, it starts no tone and it keeps the wave function
    it was created with. *)
Theorem loop_never_ends (s0 : App) (tr : list Event) (c : Config) :
  run (AtEntry, s0) tr c ->
  fst c <> Returned /\ fst c <> Raised /\
  (exists ev c', step c = Some (ev, c')) /\
  tones tr = 0%nat /\
  wave_func (snd c) = wave_func s0.
Proof.
  intros H.
  destruct (run_keeps_running _ _ _ H I (or_introl eq_refl) ltac:(discriminate))
    as (Hw & Hc & Hret & Hwf & Ht).
  destruct c as [pc self]. cbn [fst snd] in *.
  split; [exact Hret |].
  split; [intros ->; exact Hw |].
  split; [| split; assumption].
  destruct pc; cbn [frame_shaped fst] in Hw; cbn [step];
    try solve [eexists _, _; reflexivity]; try contradiction.
  - destruct (generate_bitmap self (phase self)); eexists _, _; reflexivity.
  - destruct (middle_row_total bitmap Hw) as (m & -> & _).
    destruct (compare self m). eexists _, _; reflexivity.
Qed.

Lemma loop_never_ends_witness :
  run (AtEntry, default_app) [] (AtWhile, entered default_app) /\
  AtWhile <> Returned /\
  exists ev c', step (AtWhile, entered default_app) = Some (ev, c').
Proof.
  assert (H : run (AtEntry, default_app) [] (AtWhile, entered default_app)).
  { apply (run_cons (AtEntry, default_app) [] (AtWhile, entered default_app) [] _);
      [reflexivity | apply run_nil]. }
  destruct (loop_never_ends default_app [] (AtWhile, entered default_app) H)
    as (Hret & _ & Hnext & _).
  split; [exact H |]. split; [exact Hret | exact Hnext].
Defined.
